(** * Mergington High School activities API: signup / unregister consistency

    A shallow embedding of [src/app.py].  The two SQLModel tables are lists of
    rows kept in rowid order, a request handler is a program over the
    statements it sends through its [Session], and a program is run either
    alone (one request at a time) or interleaved with another request,
    statement by statement, against the same database. *)

From stdpp Require Import gmap strings list fin_maps sorting.
From Stdlib Require Import ZArith Lia.

Local Open Scope string_scope.

(* ------------------------------------------------------------------ *)
(** ** Database models *)
(* ------------------------------------------------------------------ *)

(** [class Activity(SQLModel, table=True)].  [id] is [None] on an object that
    has not been inserted yet. *)
Record Activity := mkActivity {
  Activity_id : option Z;
  name : string;
  description : string;
  schedule : string;
  max_participants : Z
}.

(** [class Participant(SQLModel, table=True)]. *)
Record Participant := mkParticipant {
  Participant_id : option Z;
  email : string;
  activity_name : string
}.

#[global] Instance Activity_eq_dec : EqDecision Activity.
Proof. solve_decision. Defined.

#[global] Instance Participant_eq_dec : EqDecision Participant.
Proof. solve_decision. Defined.

(** A mapped object handed to [session.add] or [session.delete]. *)
Inductive Model :=
| ActivityRow (a : Activity)
| ParticipantRow (p : Participant).

(** The database file: table [activity] and table [participant], each in
    rowid order, which is the order an unordered [SELECT] scans them in. *)
Record Database := mkDatabase {
  activity_table : list Activity;
  participant_table : list Participant
}.

(** What [create_db_and_tables] leaves on a fresh file. *)
Definition empty_db : Database := mkDatabase [] [].

(** SQLite's rowid for an [INTEGER PRIMARY KEY] left NULL: one more than the
    largest rowid in the table, 1 on an empty table. *)
Definition next_rowid (ids : list (option Z)) : Z :=
  (1 + foldr Z.max 0 (default 0 <$> ids))%Z.

(** [INSERT INTO activity ...] / [INSERT INTO participant ...].  The objects
    this program adds never carry an id, so the row takes the next rowid and
    goes last.  An insert that broke the unique index on [Activity.name] would
    raise instead; the only activity inserts are the seed rows, into an empty
    table, and their names are distinct ([seed_names_distinct] below). *)
Definition insert_row (o : Model) (db : Database) : Database :=
  match o with
  | ActivityRow a =>
      let i := default (next_rowid (Activity_id <$> activity_table db)) (Activity_id a) in
      mkDatabase
        (activity_table db ++
           [mkActivity (Some i) (name a) (description a) (schedule a) (max_participants a)])
        (participant_table db)
  | ParticipantRow p =>
      let i := default (next_rowid (Participant_id <$> participant_table db)) (Participant_id p) in
      mkDatabase
        (activity_table db)
        (participant_table db ++ [mkParticipant (Some i) (email p) (activity_name p)])
  end.

(** [DELETE FROM ... WHERE id = ?], the statement [session.delete] flushes. *)
Definition delete_row (o : Model) (db : Database) : Database :=
  match o with
  | ActivityRow a =>
      mkDatabase
        (filter (λ r, Activity_id r ≠ Activity_id a) (activity_table db))
        (participant_table db)
  | ParticipantRow p =>
      mkDatabase
        (activity_table db)
        (filter (λ r, Participant_id r ≠ Participant_id p) (participant_table db))
  end.

(* ------------------------------------------------------------------ *)
(** ** Sessions *)
(* ------------------------------------------------------------------ *)

(** Work a session has recorded but not yet sent to the database. *)
Inductive Pending :=
| PendingInsert (o : Model)
| PendingDelete (o : Model).

Definition apply_pending (db : Database) (w : Pending) : Database :=
  match w with
  | PendingInsert o => insert_row o db
  | PendingDelete o => delete_row o db
  end.

(** A [Session(engine)]: the unit of work not yet flushed, and the contents of
    its open transaction once something has been flushed.  [txn = None] means
    no write has been sent, so reads see the committed database. *)
Record Session := mkSession {
  pending : list Pending;
  txn : option Database
}.

Definition new_session : Session := mkSession [] None.

(** What the session's queries read. *)
Definition view (db : Database) (s : Session) : Database := default db (txn s).

(** [session.flush()]: send the recorded work, in the order it was recorded. *)
Definition flush (db : Database) (s : Session) : Session :=
  match pending s with
  | [] => s
  | ws => mkSession [] (Some (foldl apply_pending (view db s) ws))
  end.

(** The statements the handlers issue through a session.  A [select] carries
    its [where] clause as a decidable predicate on rows. *)
Inductive Stmt : Type → Type :=
| SelectActivity (P : Activity → Prop) `{!∀ a, Decision (P a)} : Stmt (list Activity)
| SelectParticipant (P : Participant → Prop) `{!∀ p, Decision (P p)} : Stmt (list Participant)
| SessionAdd (o : Model) : Stmt ()
| SessionDelete (o : Model) : Stmt ()
| SessionFlush : Stmt ()
| SessionCommit : Stmt ().

(** One statement against the committed database [db] through session [s].
    A query autoflushes first, as SQLAlchemy sessions do by default;
    [commit] flushes, makes the transaction's contents the committed ones and
    ends the transaction. *)
Definition exec_stmt {X} (st : Stmt X) (db : Database) (s : Session)
  : X * Database * Session :=
  match st in Stmt X return X * Database * Session with
  | SelectActivity P =>
      let s' := flush db s in (filter P (activity_table (view db s')), db, s')
  | SelectParticipant P =>
      let s' := flush db s in (filter P (participant_table (view db s')), db, s')
  | SessionAdd o =>
      ((), db, mkSession (pending s ++ [PendingInsert o]) (txn s))
  | SessionDelete o =>
      ((), db, mkSession (pending s ++ [PendingDelete o]) (txn s))
  | SessionFlush => ((), db, flush db s)
  | SessionCommit => let s' := flush db s in ((), view db s', new_session)
  end.

(* ------------------------------------------------------------------ *)
(** ** Handler programs *)
(* ------------------------------------------------------------------ *)

(** [HTTPException(status_code=..., detail=...)]. *)
Record HTTPException := mkHTTPException {
  status_code : Z;
  detail : string
}.

#[global] Instance HTTPException_eq_dec : EqDecision HTTPException.
Proof. solve_decision. Defined.

(** The body of a [with Session(engine) as session:] block: it returns, raises,
    or issues a statement and goes on with its result. *)
Inductive Prog (A : Type) : Type :=
| Return (a : A)
| Raise (e : HTTPException)
| Exec {X : Type} (st : Stmt X) (k : X → Prog A).

Arguments Return {A} a.
Arguments Raise {A} e.
Arguments Exec {A X} st k.

Fixpoint prog_bind {A B} (f : A → Prog B) (p : Prog A) : Prog B :=
  match p with
  | Return a => f a
  | Raise e => Raise e
  | Exec st k => Exec st (λ x, prog_bind f (k x))
  end.

#[global] Instance Prog_ret : MRet Prog := @Return.
#[global] Instance Prog_bind : MBind Prog := @prog_bind.
#[global] Instance Prog_fmap : FMap Prog :=
  λ A B f p, prog_bind (λ x, Return (f x)) p.

Definition exec {X} (st : Stmt X) : Prog X := Exec st Return.

(** A Python [for x in l:] whose body only has effects. *)
Fixpoint for_ {A} (l : list A) (body : A → Prog ()) : Prog () :=
  match l with
  | [] => mret ()
  | x :: l' => body x ≫= λ _, for_ l' body
  end.

(** A Python [for x in l:] whose body updates a local variable. *)
Fixpoint for_acc {A S} (l : list A) (acc : S) (body : S → A → Prog S) : Prog S :=
  match l with
  | [] => mret acc
  | x :: l' => body acc x ≫= λ acc', for_acc l' acc' body
  end.

(** [.first()] and [.all()] on the rows a [session.exec] returned. *)
Definition first {A} (rows : list A) : option A := head rows.
Definition all {A} (rows : list A) : list A := rows.

(** Run a block to its end on committed database [db] with session [s]. *)
Fixpoint run {A} (p : Prog A) (db : Database) (s : Session)
  : Database * Session * (HTTPException + A) :=
  match p with
  | Return a => (db, s, inr a)
  | Raise e => (db, s, inl e)
  | Exec st k =>
      let '(x, db', s') := exec_stmt st db s in run (k x) db' s'
  end.

(** [with Session(engine) as session: ...] as one whole request: a fresh
    session, and on leaving the block whatever was not committed is dropped
    with the session. *)
Definition with_session {A} (p : Prog A) (db : Database)
  : Database * (HTTPException + A) :=
  let '(db', _, r) := run p db new_session in (db', r).

(* ------------------------------------------------------------------ *)
(** ** Seed data *)
(* ------------------------------------------------------------------ *)

(** One entry of [SEED_ACTIVITIES] (a dict with these five keys). *)
Record SeedEntry := mkSeed {
  seed_name : string;
  seed_description : string;
  seed_schedule : string;
  seed_max_participants : Z;
  seed_participants : list string
}.

Definition SEED_ACTIVITIES : list SeedEntry := [
  mkSeed "Chess Club" "Learn strategies and compete in chess tournaments"
    "Fridays, 3:30 PM - 5:00 PM" 12
    ["michael@mergington.edu"; "daniel@mergington.edu"];
  mkSeed "Programming Class" "Learn programming fundamentals and build software projects"
    "Tuesdays and Thursdays, 3:30 PM - 4:30 PM" 20
    ["emma@mergington.edu"; "sophia@mergington.edu"];
  mkSeed "Gym Class" "Physical education and sports activities"
    "Mondays, Wednesdays, Fridays, 2:00 PM - 3:00 PM" 30
    ["john@mergington.edu"; "olivia@mergington.edu"];
  mkSeed "Soccer Team" "Join the school soccer team and compete in matches"
    "Tuesdays and Thursdays, 4:00 PM - 5:30 PM" 22
    ["liam@mergington.edu"; "noah@mergington.edu"];
  mkSeed "Basketball Team" "Practice and play basketball with the school team"
    "Wednesdays and Fridays, 3:30 PM - 5:00 PM" 15
    ["ava@mergington.edu"; "mia@mergington.edu"];
  mkSeed "Art Club" "Explore your creativity through painting and drawing"
    "Thursdays, 3:30 PM - 5:00 PM" 15
    ["amelia@mergington.edu"; "harper@mergington.edu"];
  mkSeed "Drama Club" "Act, direct, and produce plays and performances"
    "Mondays and Wednesdays, 4:00 PM - 5:30 PM" 20
    ["ella@mergington.edu"; "scarlett@mergington.edu"];
  mkSeed "Math Club" "Solve challenging problems and participate in math competitions"
    "Tuesdays, 3:30 PM - 4:30 PM" 10
    ["james@mergington.edu"; "benjamin@mergington.edu"];
  mkSeed "Debate Team" "Develop public speaking and argumentation skills"
    "Fridays, 4:00 PM - 5:30 PM" 12
    ["charlotte@mergington.edu"; "henry@mergington.edu"]
].

(** [seed_database]: nothing when the activity table has a row; otherwise
    every seed activity, flushed, followed by its participants, and one
    commit at the end. *)
Definition seed_database : Prog () :=
  existing ← first <$> exec (SelectActivity (λ _, True));
  if existing is Some _ then mret ()   (* Already seeded *)
  else
    for_ SEED_ACTIVITIES (λ data,
      let activity :=
        mkActivity None (seed_name data) (seed_description data)
          (seed_schedule data) (seed_max_participants data) in
      exec (SessionAdd (ActivityRow activity));;
      exec SessionFlush;;
      for_ (seed_participants data) (λ email,
        exec (SessionAdd (ParticipantRow (mkParticipant None email (name activity))))));;
    exec SessionCommit.

(** [on_startup]: the tables exist from here on, then the seeding. *)
Definition on_startup : Prog () := seed_database.

(* ------------------------------------------------------------------ *)
(** ** Routes *)
(* ------------------------------------------------------------------ *)

(** The values the returned dicts hold. *)
Inductive Value :=
| VStr (s : string)
| VInt (n : Z)
| VList (l : list string).

#[global] Instance Value_eq_dec : EqDecision Value.
Proof. solve_decision. Defined.

Definition _activity_to_dict (activity : Activity) (participants : list string)
  : gmap string Value :=
  <["participants" := VList participants]>
  (<["max_participants" := VInt (max_participants activity)]>
  (<["schedule" := VStr (schedule activity)]>
  (<["description" := VStr (description activity)]> ∅))).

(** [GET /activities]. *)
Definition get_activities : Prog (gmap string (gmap string Value)) :=
  activities ← all <$> exec (SelectActivity (λ _, True));
  for_acc activities ∅ (λ result activity,
    participants ← all <$>
      exec (SelectParticipant (λ p, activity_name p = name activity));
    mret (<[name activity := _activity_to_dict activity (email <$> participants)]> result)).

(** [POST /activities/{activity_name}/signup]. *)
Definition signup_for_activity (activity_name' email' : string)
  : Prog (gmap string Value) :=
  (* Validate activity exists *)
  activity ← first <$> exec (SelectActivity (λ a, name a = activity_name'));
  match activity with
  | None => Raise (mkHTTPException 404 "Activity not found")
  | Some activity =>
      (* Validate student is not already signed up *)
      existing ← first <$> exec (SelectParticipant
        (λ p, activity_name p = activity_name' ∧ email p = email'));
      if existing is Some _ then
        Raise (mkHTTPException 400 "Student is already signed up")
      else
        (* Validate capacity *)
        participant_count ← (λ rows, Z.of_nat (length (all rows))) <$>
          exec (SelectParticipant (λ p, activity_name p = activity_name'));
        if (participant_count >=? max_participants activity)%Z then
          Raise (mkHTTPException 400 "Activity is full")
        else
          (* Add student *)
          exec (SessionAdd (ParticipantRow (mkParticipant None email' activity_name')));;
          exec SessionCommit;;
          mret {[ "message" := VStr ("Signed up " +:+ email' +:+ " for " +:+ activity_name') ]}
  end.

(** [DELETE /activities/{activity_name}/unregister]. *)
Definition unregister_from_activity (activity_name' email' : string)
  : Prog (gmap string Value) :=
  (* Validate activity exists *)
  activity ← first <$> exec (SelectActivity (λ a, name a = activity_name'));
  match activity with
  | None => Raise (mkHTTPException 404 "Activity not found")
  | Some _ =>
      (* Find the participant record *)
      participant ← first <$> exec (SelectParticipant
        (λ p, activity_name p = activity_name' ∧ email p = email'));
      match participant with
      | None =>
          Raise (mkHTTPException 400 "Student is not signed up for this activity")
      | Some participant =>
          (* Remove student *)
          exec (SessionDelete (ParticipantRow participant));;
          exec SessionCommit;;
          mret {[ "message" :=
                    VStr ("Unregistered " +:+ email' +:+ " from " +:+ activity_name') ]}
      end
  end.

Local Close Scope string_scope.

(* ------------------------------------------------------------------ *)
(** ** Serving requests one at a time *)
(* ------------------------------------------------------------------ *)

(** The operations that change the store. *)
Inductive Request :=
| Startup
| Signup (activity_name' email' : string)
| Unregister (activity_name' email' : string).

#[global] Instance Request_eq_dec : EqDecision Request.
Proof. solve_decision. Defined.

(** The committed database after one request has been handled. *)
Definition handle (db : Database) (r : Request) : Database :=
  match r with
  | Startup => (with_session on_startup db).1
  | Signup n e => (with_session (signup_for_activity n e) db).1
  | Unregister n e => (with_session (unregister_from_activity n e) db).1
  end.

Definition serve (rs : list Request) (db : Database) : Database :=
  foldl handle db rs.

(** The database once the application has started on a fresh file. *)
Definition seeded_db : Database := handle empty_db Startup.

(* ------------------------------------------------------------------ *)
(** ** Vocabulary of the specification *)
(* ------------------------------------------------------------------ *)

(** The enrollment records of activity [n], oldest first. *)
Definition enrollments (n : string) (db : Database) : list Participant :=
  filter (λ p, activity_name p = n) (participant_table db).

(** The roster of activity [n]: the emails of its enrollment records. *)
Definition roster (n : string) (db : Database) : list string :=
  email <$> enrollments n db.

(** The enrollment records for the pair [(n, e)]. *)
Definition enrollments_of (n e : string) (db : Database) : list Participant :=
  filter (λ p, activity_name p = n ∧ email p = e) (participant_table db).

Definition activity_exists (n : string) (db : Database) : Prop :=
  ∃ a, a ∈ activity_table db ∧ name a = n.

Definition enrolled (n e : string) (db : Database) : Prop :=
  ∃ p, p ∈ participant_table db ∧ activity_name p = n ∧ email p = e.

#[global] Instance activity_exists_dec n db : Decision (activity_exists n db).
Proof.
  refine (cast_if (decide (Exists (λ a, name a = n) (activity_table db))));
    unfold activity_exists; by rewrite <- Exists_exists.
Defined.

#[global] Instance enrolled_dec n e db : Decision (enrolled n e db).
Proof.
  refine (cast_if (decide (Exists (λ p, activity_name p = n ∧ email p = e)
                             (participant_table db))));
    unfold enrolled; by rewrite <- Exists_exists.
Defined.

(** What the table declarations make the database enforce: [unique=True] on
    [Activity.name] and the two primary keys. *)
Record schema_constraints (db : Database) : Prop := mkSchema {
  unique_name : NoDup (name <$> activity_table db);
  activity_pk : NoDup (Activity_id <$> activity_table db);
  participant_pk : NoDup (Participant_id <$> participant_table db)
}.

(** The invariants of the enrollment service. *)
Definition capacity_respected (db : Database) : Prop :=
  ∀ a, a ∈ activity_table db →
       (Z.of_nat (length (enrollments (name a) db)) ≤ max_participants a)%Z.

Definition enrollment_unique (db : Database) : Prop :=
  ∀ n e, length (enrollments_of n e db) ≤ 1.

Definition referential_integrity (db : Database) : Prop :=
  ∀ p, p ∈ participant_table db → activity_exists (activity_name p) db.

Record consistent (db : Database) : Prop := mkConsistent {
  cons_schema : schema_constraints db;
  cons_capacity : capacity_respected db;
  cons_unique : enrollment_unique db;
  cons_referential : referential_integrity db
}.

Definition ok_message (verb e prep n : string) : gmap string Value :=
  {[ "message" := VStr (verb +:+ e +:+ prep +:+ n) ]}.

(** The four errors the handlers raise. *)
Definition not_found : HTTPException := mkHTTPException 404 "Activity not found".
Definition already_signed_up : HTTPException :=
  mkHTTPException 400 "Student is already signed up".
Definition activity_full : HTTPException := mkHTTPException 400 "Activity is full".
Definition not_signed_up : HTTPException :=
  mkHTTPException 400 "Student is not signed up for this activity".

(** The enrollment record a successful signup writes. *)
Definition new_enrollment (n e : string) (db : Database) : Participant :=
  mkParticipant (Some (next_rowid (Participant_id <$> participant_table db))) e n.

(** The dict [get_activities] has built after the rows [l] of its loop. *)
Definition listing_of (db : Database) (l : list Activity)
    (acc : gmap string (gmap string Value)) : gmap string (gmap string Value) :=
  foldl (λ result a, <[name a := _activity_to_dict a (roster (name a) db)]> result) acc l.

(* ------------------------------------------------------------------ *)
(** ** Two requests in flight *)
(* ------------------------------------------------------------------ *)

(** The handlers are plain [def] routes: the server runs each call on its own
    worker, each opens its own [Session] on the shared engine, and the source
    takes no lock, sets no isolation level and begins no transaction before
    its reads.  What is atomic is one statement: a query, or the commit that
    writes the session's pending rows.  A request in flight is its session and
    the rest of its handler.  Signup and unregister flush only inside their
    commit, so between two turns no request holds an open write transaction
    and every statement reads the committed database. *)
Record Thread (A : Type) := mkThread {
  thread_session : Session;
  thread_prog : Prog A
}.

Arguments mkThread {A} _ _.
Arguments thread_session {A} _.
Arguments thread_prog {A} _.

Definition spawn {A} (p : Prog A) : Thread A := mkThread new_session p.

(** The next statement of a request, against the shared database.  A request
    that has returned or raised stays as it is. *)
Definition step {A} (db : Database) (t : Thread A) : Database * Thread A :=
  match thread_prog t with
  | Exec st k =>
      let '(x, db', s') := exec_stmt st db (thread_session t) in
      (db', mkThread s' (k x))
  | _ => (db, t)
  end.

(** What the client of a request has received, if anything yet. *)
Definition response {A} (t : Thread A) : option (HTTPException + A) :=
  match thread_prog t with
  | Return a => Some (inr a)
  | Raise e => Some (inl e)
  | Exec _ _ => None
  end.

Inductive Turn := First | Second.

(** Two requests under a schedule that says whose statement runs next. *)
Fixpoint interleave {A B} (sched : list Turn) (db : Database)
    (t1 : Thread A) (t2 : Thread B) : Database * Thread A * Thread B :=
  match sched with
  | [] => (db, t1, t2)
  | First :: sched' =>
      let '(db', t1') := step db t1 in interleave sched' db' t1' t2
  | Second :: sched' =>
      let '(db', t2') := step db t2 in interleave sched' db' t1 t2'
  end.

(** A request that is over, with response [r]. *)
Definition finished {A} (r : HTTPException + A) : Thread A :=
  mkThread new_session (match r with inl e => Raise e | inr a => Return a end).

(** [k] statements of one request, the other one idle. *)
Fixpoint steps {A} (k : nat) (db : Database) (t : Thread A) : Database * Thread A :=
  match k with
  | 0 => (db, t)
  | S k' => let '(db', t') := step db t in steps k' db' t'
  end.

(** An activity with one slot and nobody enrolled. *)
Definition race_db : Database :=
  mkDatabase [mkActivity (Some 1%Z) "A" "" "" 1] [].

(** Both requests run their three checks, then each adds and commits. *)
Definition racing : list Turn :=
  [First; First; First; Second; Second; Second; First; First; Second; Second].

(** One request from its first statement to its last, then the other. *)
Definition first_then_second : list Turn := replicate 5 First ++ replicate 5 Second.
Definition second_then_first : list Turn := replicate 5 Second ++ replicate 5 First.

(** Math Club (ten slots) with nine enrolled, and the same store after two
    signups for it have raced under [racing]. *)
Definition math_club_nine : Database :=
  serve ((λ e, Signup "Math Club" e) <$>
           ["s3"; "s4"; "s5"; "s6"; "s7"; "s8"; "s9"]%string) seeded_db.

Definition math_club_raced : Database :=
  (interleave racing math_club_nine
     (spawn (signup_for_activity "Math Club" "x@e"))
     (spawn (signup_for_activity "Math Club" "y@e"))).1.1.

(* ------------------------------------------------------------------ *)
(** ** Further vocabulary *)
(* ------------------------------------------------------------------ *)

(** The participant table lists its rows by strictly increasing, non-null
    rowid: the order of the list is the order a table scan returns. *)
Definition rowid_ordered (db : Database) : Prop :=
  ∃ ids : list Z,
    Participant_id <$> participant_table db = Some <$> ids
    ∧ StronglySorted Z.lt ids.

(** The columns of an activity row other than its id, and the same columns
    of a seed entry. *)
Definition activity_columns (a : Activity) : string * string * string * Z :=
  (name a, description a, schedule a, max_participants a).

Definition seed_columns (d : SeedEntry) : string * string * string * Z :=
  (seed_name d, seed_description d, seed_schedule d, seed_max_participants d).

(** [session.commit()] among the statements. *)
Definition is_commit {X} (st : Stmt X) : bool :=
  match st with
  | SessionCommit => true
  | _ => false
  end.

(** A block that has returned or raised. *)
Definition over {A} (p : Prog A) : Prop :=
  match p with
  | Exec _ _ => False
  | _ => True
  end.

(** A block that commits at most once, and then as the last thing it does. *)
Inductive commits_last {A} : Prog A → Prop :=
| commits_last_return (a : A) : commits_last (Return a)
| commits_last_raise (e : HTTPException) : commits_last (Raise e)
| commits_last_commit (k : () → Prog A) :
    over (k ()) → commits_last (Exec SessionCommit k)
| commits_last_exec {X} (st : Stmt X) (k : X → Prog A) :
    is_commit st = false → (∀ x, commits_last (k x)) → commits_last (Exec st k).

(** The (activity, email) pairs of a participant table, and the pairs the
    seed data asks for, in seed order. *)
Definition enrollment_pairs (tbl : list Participant) : list (string * string) :=
  (λ p, (activity_name p, email p)) <$> tbl.

Definition seed_pairs (seeds : list SeedEntry) : list (string * string) :=
  seeds ≫= λ d, (λ e, (seed_name d, e)) <$> seed_participants d.

(** The objects the seeding adds for one seed entry, in the order it adds
    them. *)
Definition seed_rows (d : SeedEntry) : list Model :=
  ActivityRow (mkActivity None (seed_name d) (seed_description d)
                 (seed_schedule d) (seed_max_participants d))
  :: ((λ e, ParticipantRow (mkParticipant None e (seed_name d))) <$> seed_participants d).

(** What the database would hold if the session flushed now. *)
Definition effective (db : Database) (s : Session) : Database :=
  foldl apply_pending (view db s) (pending s).

(** What an inserted object contributes to each table. *)
Definition row_columns (o : Model) : list (string * string * string * Z) :=
  match o with
  | ActivityRow a => [activity_columns a]
  | ParticipantRow _ => []
  end.

Definition row_pairs (o : Model) : list (string * string) :=
  match o with
  | ActivityRow _ => []
  | ParticipantRow p => [(activity_name p, email p)]
  end.

(** The tail of a signup for activity [n]: rows of [n] are added, then one
    commit ends the block. *)
Inductive adds_then_commits (n : string) {A} : Prog A → Prop :=
| atc_add (p : Participant) (k : () → Prog A) :
    activity_name p = n → adds_then_commits n (k ()) →
    adds_then_commits n (Exec (SessionAdd (ParticipantRow p)) k)
| atc_commit (k : () → Prog A) :
    over (k ()) → adds_then_commits n (Exec SessionCommit k).

(** A block shaped like a signup for activity [n]: it queries the activity
    table, and the participant table only for rows of [n] and only to learn
    how many there are; then it stops, or adds rows of [n] and commits. *)
Inductive reads_activity (n : string) {A} : Prog A → Prop :=
| ra_return (a : A) : reads_activity n (Return a)
| ra_raise (e : HTTPException) : reads_activity n (Raise e)
| ra_select_activity (P : Activity → Prop) (dec : ∀ a, Decision (P a))
    (k : list Activity → Prog A) :
    (∀ rows, reads_activity n (k rows)) →
    reads_activity n (Exec (@SelectActivity P dec) k)
| ra_select_participant (P : Participant → Prop) (dec : ∀ p, Decision (P p))
    (Q : string → Prop) (decQ : ∀ e, Decision (Q e))
    (k : list Participant → Prog A) :
    (∀ p, P p ↔ activity_name p = n ∧ Q (email p)) →
    (∀ rows rows', length rows = length rows' → k rows = k rows') →
    (∀ rows, reads_activity n (k rows)) →
    reads_activity n (Exec (@SelectParticipant P dec) k)
| ra_write (p : Prog A) : adds_then_commits n p → reads_activity n p.

(** Pending work that is nothing but inserts of rows of activity [n]. *)
Definition inserts_for (n : string) (ws : list Pending) : Prop :=
  Forall (λ w, ∃ p, w = PendingInsert (ParticipantRow p) ∧ activity_name p = n) ws.

(** A request in flight that is such a block: still reading, with nothing
    pending, or writing, with only inserts for [n] pending. *)
Definition thread_local (n : string) {A} (t : Thread A) : Prop :=
  (thread_session t = new_session ∧ reads_activity n (thread_prog t))
  ∨ (txn (thread_session t) = None
     ∧ inserts_for n (pending (thread_session t))
     ∧ adds_then_commits n (thread_prog t)).

(** Two databases a signup for [n] cannot tell apart. *)
Definition same_view (n : string) (db db' : Database) : Prop :=
  activity_table db = activity_table db' ∧ roster n db = roster n db'.

(** The emails of the participant rows waiting to be inserted. *)
Definition pending_emails (ws : list Pending) : list string :=
  ws ≫= λ w, match w with
             | PendingInsert (ParticipantRow p) => [email p]
             | _ => []
             end.

(** One when the next statement of a block is an add or a commit: the block
    is past its checks and has a row to write. *)
Definition tickets {A} (p : Prog A) : nat :=
  match p with
  | Exec st _ =>
      match st with
      | SessionAdd _ | SessionCommit => 1
      | _ => 0
      end
  | _ => 0
  end.

(** A block that writes only behind a capacity check for activity [n], whose
    activity table is [acts] and whose capacity is [M]: it comes to add a row
    only from a query that counted fewer than [M] rows of [n], and then adds
    one row of [n] and commits. *)
Inductive guarded (n : string) (acts : list Activity) (M : Z) {A} : Prog A → Prop :=
| guarded_return (a : A) : guarded n acts M (Return a)
| guarded_raise (e : HTTPException) : guarded n acts M (Raise e)
| guarded_select_activity (P : Activity → Prop) (dec : ∀ a, Decision (P a))
    (k : list Activity → Prog A) :
    tickets (k (filter P acts)) = 0 →
    guarded n acts M (k (filter P acts)) →
    guarded n acts M (Exec (@SelectActivity P dec) k)
| guarded_select_participant (P : Participant → Prop) (dec : ∀ p, Decision (P p))
    (k : list Participant → Prog A) :
    (∀ rows, tickets (k rows) = 0) →
    (∀ rows, guarded n acts M (k rows)) →
    guarded n acts M (Exec (@SelectParticipant P dec) k)
| guarded_count (P : Participant → Prop) (dec : ∀ p, Decision (P p))
    (k : list Participant → Prog A) :
    (∀ p, P p ↔ activity_name p = n) →
    (∀ rows, guarded n acts M (k rows)) →
    (∀ rows, tickets (k rows) = 0 ∨ (Z.of_nat (length rows) < M)%Z) →
    guarded n acts M (Exec (@SelectParticipant P dec) k)
| guarded_add (q : Participant) (k k' : () → Prog A) :
    activity_name q = n → k () = Exec SessionCommit k' → over (k' ()) →
    guarded n acts M (Exec (SessionAdd (ParticipantRow q)) k).

(** A request in flight that is such a block: nothing pending, or its one row
    pending and the commit next. *)
Definition guarded_thread (n : string) (acts : list Activity) (M : Z) {A}
    (t : Thread A) : Prop :=
  (thread_session t = new_session ∧ guarded n acts M (thread_prog t))
  ∨ (∃ q k,
       thread_session t = mkSession [PendingInsert (ParticipantRow q)] None
       ∧ activity_name q = n
       ∧ thread_prog t = Exec SessionCommit k
       ∧ over (k ())).

(* ------------------------------------------------------------------ *)
(** ** What each handler computes *)
(* ------------------------------------------------------------------ *)

Lemma signup_run n e db :
  with_session (signup_for_activity n e) db =
  match head (filter (λ a, name a = n) (activity_table db)) with
  | None => (db, inl (mkHTTPException 404 "Activity not found"))
  | Some a =>
      match enrollments_of n e db with
      | _ :: _ => (db, inl (mkHTTPException 400 "Student is already signed up"))
      | [] =>
          if (Z.of_nat (length (enrollments n db)) >=? max_participants a)%Z
          then (db, inl (mkHTTPException 400 "Activity is full"))
          else (insert_row (ParticipantRow (mkParticipant None e n)) db,
                inr (ok_message "Signed up " e " for " n))
      end
  end.
Proof.
  unfold with_session, signup_for_activity, enrollments_of, enrollments, first, all.
  simpl. change (flush db new_session) with new_session.
  change (view db new_session) with db.
  destruct (head _) as [a|]; simpl; [|done].
  change (flush db new_session) with new_session.
  change (view db new_session) with db.
  destruct (filter _ (participant_table db)) as [|p ps]; simpl; [|done].
  destruct (_ >=? _)%Z; simpl; done.
Qed.

Lemma unregister_run n e db :
  with_session (unregister_from_activity n e) db =
  match head (filter (λ a, name a = n) (activity_table db)) with
  | None => (db, inl (mkHTTPException 404 "Activity not found"))
  | Some _ =>
      match enrollments_of n e db with
      | [] => (db, inl (mkHTTPException 400 "Student is not signed up for this activity"))
      | p :: _ =>
          (delete_row (ParticipantRow p) db,
           inr (ok_message "Unregistered " e " from " n))
      end
  end.
Proof.
  unfold with_session, unregister_from_activity, enrollments_of, first.
  simpl. change (flush db new_session) with new_session.
  change (view db new_session) with db.
  destruct (head _) as [a|]; simpl; [|done].
  change (flush db new_session) with new_session.
  change (view db new_session) with db.
  destruct (filter _ (participant_table db)) as [|p ps]; simpl; done.
Qed.

(* ------------------------------------------------------------------ *)
(** ** Lists of rows *)
(* ------------------------------------------------------------------ *)

Section rows.
Context {A K : Type} `{EqDecision K} (key : A → K).

Lemma filter_nil_iff (P : A → Prop) `{!∀ x, Decision (P x)} (l : list A) :
  filter P l = [] ↔ ∀ x, x ∈ l → ¬ P x.
Proof.
  split.
  - intros Hnil x Hx HP.
    assert (x ∈ filter P l) as Hin by (apply list_elem_of_filter; done).
    rewrite Hnil in Hin. by apply not_elem_of_nil in Hin.
  - intros Hno. induction l as [|y l IH]; [done|].
    rewrite filter_cons. destruct (decide (P y)) as [HP|_].
    + exfalso. apply (Hno y); [left | done].
    + apply IH. intros x Hx. apply Hno. by right.
Qed.

Lemma head_filter_None (P : A → Prop) `{!∀ x, Decision (P x)} (l : list A) :
  head (filter P l) = None ↔ ∀ x, x ∈ l → ¬ P x.
Proof.
  rewrite <- (filter_nil_iff P l). destruct (filter P l); simpl; split; done.
Qed.

Lemma filter_cons_split (P : A → Prop) `{!∀ x, Decision (P x)} (l : list A) p ps :
  filter P l = p :: ps →
  ∃ l1 l2, l = l1 ++ p :: l2 ∧ P p ∧ filter P l1 = [] ∧ filter P l2 = ps.
Proof.
  induction l as [|y l IH]; [done|].
  rewrite filter_cons. destruct (decide (P y)) as [HP|HP].
  - intros [= -> <-]. exists [], l. done.
  - intros Hf. destruct (IH Hf) as (l1 & l2 & -> & Hp & Hl1 & Hl2).
    exists (y :: l1), l2. split_and!; try done.
    rewrite filter_cons. by destruct (decide (P y)).
Qed.

(** With a unique key, selecting on the key of a row of the table finds
    that row and nothing else. *)
Lemma filter_unique_key (l : list A) (a : A) :
  NoDup (key <$> l) → a ∈ l → filter (λ x, key x = key a) l = [a].
Proof.
  induction l as [|y l IH]; intros Hnd Hin.
  - by apply not_elem_of_nil in Hin.
  - rewrite fmap_cons in Hnd. apply NoDup_cons in Hnd as [Hy Hnd].
    rewrite filter_cons. apply elem_of_cons in Hin as [->|Hin].
    + destruct (decide (key y = key y)) as [_|]; [|done]. f_equal.
      apply filter_nil_iff. intros x Hx Heq. apply Hy. rewrite <- Heq.
      apply list_elem_of_fmap. eauto.
    + destruct (decide (key y = key a)) as [Heq|_]; [|by apply IH].
      exfalso. apply Hy. rewrite Heq. apply list_elem_of_fmap. eauto.
Qed.

(** Deleting by a unique key removes the one row that carries it. *)
Lemma filter_delete_key (l1 l2 : list A) (p : A) :
  NoDup (key <$> (l1 ++ p :: l2)) →
  filter (λ r, key r ≠ key p) (l1 ++ p :: l2) = l1 ++ l2.
Proof.
  intros Hnd. rewrite fmap_app, fmap_cons in Hnd.
  apply NoDup_app in Hnd as (_ & Hl1 & Hnd).
  apply NoDup_cons in Hnd as [Hl2 _].
  assert (∀ l : list A, key p ∉ key <$> l → filter (λ r, key r ≠ key p) l = l) as Hkeep.
  { intros l Hl. induction l as [|y l IH]; [done|].
    rewrite fmap_cons in Hl. apply not_elem_of_cons in Hl as [Hne Hl].
    rewrite filter_cons. destruct (decide (key y ≠ key p)) as [_|Hn].
    - f_equal. by apply IH.
    - exfalso. apply Hn. congruence. }
  rewrite filter_app, filter_cons.
  destruct (decide (key p ≠ key p)) as [Hn|_]; [done|].
  rewrite !Hkeep; [done..|]. intros Hin. by apply (Hl1 (key p)); [|left].
Qed.

Lemma length_filter_filter (P Q : A → Prop)
    `{!∀ x, Decision (P x)} `{!∀ x, Decision (Q x)} (l : list A) :
  (length (filter P (filter Q l)) ≤ length (filter P l))%nat.
Proof.
  induction l as [|y l IH]; [done|].
  rewrite !filter_cons.
  destruct (decide (Q y)), (decide (P y)); rewrite ?filter_cons; simpl;
    repeat case_decide; simpl; try done; lia.
Qed.

Lemma NoDup_key_filter_length (l : list A) (k : K) :
  NoDup (key <$> l) → (length (filter (λ x, key x = k) l) ≤ 1)%nat.
Proof.
  intros Hnd. destruct (filter (λ x, key x = k) l) as [|a rest] eqn:Hf; [simpl; lia|].
  assert (a ∈ filter (λ x, key x = k) l) as Ha by (rewrite Hf; left).
  apply list_elem_of_filter in Ha as [Hk Ha]. subst k.
  rewrite (filter_unique_key l a Hnd Ha) in Hf. by injection Hf as <-.
Qed.
End rows.

(** The rowid SQLite picks is not in the table yet. *)
Lemma next_rowid_above (ids : list (option Z)) (i : Z) :
  Some i ∈ ids → (i < next_rowid ids)%Z.
Proof.
  unfold next_rowid. intros Hin.
  enough (i ≤ foldr Z.max 0 (default 0 <$> ids))%Z by lia.
  induction ids as [|j ids IH].
  - by apply not_elem_of_nil in Hin.
  - rewrite fmap_cons, foldr_cons.
    apply elem_of_cons in Hin as [<-|Hin]; [simpl; lia|].
    specialize (IH Hin). lia.
Qed.

Lemma next_rowid_fresh (ids : list (option Z)) : Some (next_rowid ids) ∉ ids.
Proof. intros Hin. apply next_rowid_above in Hin. lia. Qed.

(* ------------------------------------------------------------------ *)
(** ** The handlers in the vocabulary of the specification *)
(* ------------------------------------------------------------------ *)

Lemma select_activity_None n db :
  head (filter (λ a, name a = n) (activity_table db)) = None ↔ ¬ activity_exists n db.
Proof.
  rewrite (head_filter_None (λ a, name a = n)). unfold activity_exists.
  split; [intros H (a & Ha & Hn); by apply (H a) | intros H a Ha Hn; apply H; eauto].
Qed.

Lemma select_activity_Some n a db :
  NoDup (name <$> activity_table db) → a ∈ activity_table db → name a = n →
  head (filter (λ a, name a = n) (activity_table db)) = Some a.
Proof.
  intros Hnd Ha <-. by rewrite (filter_unique_key name _ a Hnd Ha).
Qed.

Lemma select_activity_elem n a db :
  head (filter (λ a, name a = n) (activity_table db)) = Some a →
  a ∈ activity_table db ∧ name a = n.
Proof.
  destruct (filter _ _) as [|b l] eqn:Hf; [done|]. intros [= ->].
  assert (a ∈ filter (λ a, name a = n) (activity_table db)) as Hin
    by (rewrite Hf; left).
  apply list_elem_of_filter in Hin. tauto.
Qed.

Lemma enrollments_of_nil n e db :
  enrollments_of n e db = [] ↔ ¬ enrolled n e db.
Proof.
  unfold enrollments_of, enrolled.
  rewrite (filter_nil_iff (λ p, activity_name p = n ∧ email p = e)).
  split; [intros H (p & Hp & Hne); by apply (H p) | intros H p Hp Hne; apply H; eauto].
Qed.

Lemma signup_not_found n e db :
  ¬ activity_exists n db →
  with_session (signup_for_activity n e) db = (db, inl not_found).
Proof.
  intros Hno. apply select_activity_None in Hno. by rewrite signup_run, Hno.
Qed.

Lemma signup_already n e db :
  activity_exists n db → enrolled n e db →
  with_session (signup_for_activity n e) db = (db, inl already_signed_up).
Proof.
  intros Hex Hen. rewrite signup_run.
  destruct (head _) eqn:Hsel; [|by apply select_activity_None in Hsel].
  destruct (enrollments_of n e db) eqn:Hrows; [|done].
  by apply enrollments_of_nil in Hrows.
Qed.

Lemma signup_full n e a db :
  NoDup (name <$> activity_table db) → a ∈ activity_table db → name a = n →
  ¬ enrolled n e db →
  ¬ (Z.of_nat (length (enrollments n db)) < max_participants a)%Z →
  with_session (signup_for_activity n e) db = (db, inl activity_full).
Proof.
  intros Hnd Ha Hn Hen Hcap. rewrite signup_run.
  rewrite (select_activity_Some n a db Hnd Ha Hn).
  apply enrollments_of_nil in Hen. rewrite Hen.
  destruct (Z.geb_spec (Z.of_nat (length (enrollments n db))) (max_participants a));
    [done | lia].
Qed.

Lemma signup_ok n e a db :
  NoDup (name <$> activity_table db) → a ∈ activity_table db → name a = n →
  ¬ enrolled n e db →
  (Z.of_nat (length (enrollments n db)) < max_participants a)%Z →
  with_session (signup_for_activity n e) db =
    (mkDatabase (activity_table db) (participant_table db ++ [new_enrollment n e db]),
     inr (ok_message "Signed up " e " for " n)).
Proof.
  intros Hnd Ha Hn Hen Hcap. rewrite signup_run.
  rewrite (select_activity_Some n a db Hnd Ha Hn).
  apply enrollments_of_nil in Hen. rewrite Hen.
  destruct (Z.geb_spec (Z.of_nat (length (enrollments n db))) (max_participants a));
    [lia | done].
Qed.

Lemma unregister_not_found n e db :
  ¬ activity_exists n db →
  with_session (unregister_from_activity n e) db = (db, inl not_found).
Proof.
  intros Hno. apply select_activity_None in Hno. by rewrite unregister_run, Hno.
Qed.

Lemma unregister_not_signed_up n e db :
  activity_exists n db → ¬ enrolled n e db →
  with_session (unregister_from_activity n e) db = (db, inl not_signed_up).
Proof.
  intros Hex Hen. rewrite unregister_run.
  destruct (head _) eqn:Hsel; [|by apply select_activity_None in Hsel].
  apply enrollments_of_nil in Hen. by rewrite Hen.
Qed.

Lemma unregister_ok n e db :
  NoDup (Participant_id <$> participant_table db) →
  activity_exists n db → enrolled n e db →
  ∃ l1 p l2,
    participant_table db = l1 ++ p :: l2 ∧
    activity_name p = n ∧ email p = e ∧
    with_session (unregister_from_activity n e) db =
      (mkDatabase (activity_table db) (l1 ++ l2),
       inr (ok_message "Unregistered " e " from " n)).
Proof.
  intros Hpk Hex Hen. rewrite unregister_run.
  destruct (head _) eqn:Hsel; [|by apply select_activity_None in Hsel].
  destruct (enrollments_of n e db) as [|p ps] eqn:Hrows;
    [by apply enrollments_of_nil in Hrows|].
  apply filter_cons_split in Hrows as (l1 & l2 & Htbl & [Hn He] & _).
  exists l1, p, l2. split_and!; try done.
  unfold delete_row. rewrite Htbl in Hpk |- *.
  by rewrite (filter_delete_key Participant_id l1 l2 p Hpk).
Qed.

(* ------------------------------------------------------------------ *)
(** ** Seeding *)
(* ------------------------------------------------------------------ *)

Lemma select_all {A} (l : list A) : filter (λ _, True) l = l.
Proof.
  induction l as [|x l IH]; [done|]. rewrite filter_cons_True by done. by f_equal.
Qed.

(** On a store that has an activity the seeding returns at once. *)
Lemma seed_noop db :
  activity_table db ≠ [] → with_session on_startup db = (db, inr ()).
Proof.
  intros Hne. unfold with_session, on_startup, seed_database, first. simpl.
  change (flush db new_session) with new_session.
  change (view db new_session) with db.
  rewrite select_all.
  destruct (activity_table db); done.
Qed.

(** On a store without activities the seeding commits the catalog. *)
Lemma seed_populates db :
  activity_table db = [] →
  activity_table (with_session on_startup db).1 ≠ []
  ∧ (with_session on_startup db).2 = inr ().
Proof.
  destruct db as [acts ps]. simpl. intros ->.
  unfold with_session, on_startup, seed_database, first.
  cbn -[next_rowid]. split; [discriminate | reflexivity].
Qed.

(** The [unique=True] index on [Activity.name] never rejects a seed row. *)
Lemma seed_names_distinct : NoDup (seed_name <$> SEED_ACTIVITIES).
Proof. apply (bool_decide_unpack _). by vm_compute. Qed.

(* ------------------------------------------------------------------ *)
(** ** The invariants hold in every reachable state *)
(* ------------------------------------------------------------------ *)

Lemma activity_exists_Exists n db :
  activity_exists n db ↔ Exists (λ a, name a = n) (activity_table db).
Proof. unfold activity_exists. by rewrite Exists_exists. Qed.

Lemma pair_unique_length (l : list Participant) n e :
  NoDup ((λ p, (activity_name p, email p)) <$> l) →
  length (filter (λ p, activity_name p = n ∧ email p = e) l) ≤ 1.
Proof.
  intros Hnd.
  rewrite (list_filter_iff _ (λ p, (activity_name p, email p) = (n, e))).
  - by apply (NoDup_key_filter_length (λ p, (activity_name p, email p))).
  - intros p. split; [by intros [-> ->] | by intros [= -> ->]].
Qed.

Lemma consistent_empty : consistent empty_db.
Proof.
  split; [split; simpl; apply NoDup_nil_2 |..].
  - intros a Ha. by apply not_elem_of_nil in Ha.
  - intros n e. simpl. lia.
  - intros p Hp. by apply not_elem_of_nil in Hp.
Qed.

Lemma consistent_seeded : consistent seeded_db.
Proof.
  split; [split |..].
  - apply (bool_decide_unpack _). by vm_compute.
  - apply (bool_decide_unpack _). by vm_compute.
  - apply (bool_decide_unpack _). by vm_compute.
  - unfold capacity_respected. apply Forall_forall.
    apply (bool_decide_unpack _). by vm_compute.
  - intros n e. apply pair_unique_length.
    apply (bool_decide_unpack _). by vm_compute.
  - unfold referential_integrity. apply Forall_forall.
    eapply Forall_impl; [|intros p Hp; apply activity_exists_Exists, Hp].
    apply (bool_decide_unpack _). by vm_compute.
Qed.

Lemma startup_consistent db : consistent db → consistent (handle db Startup).
Proof.
  intros Hc. simpl. destruct (activity_table db) as [|a acts] eqn:Hacts.
  - assert (participant_table db = []) as Hps.
    { destruct (participant_table db) as [|p ps] eqn:Hp; [done|].
      destruct (cons_referential db Hc p) as (a & Ha & _).
      - rewrite Hp. left.
      - rewrite Hacts in Ha. by apply not_elem_of_nil in Ha. }
    destruct db as [acts ps]. simpl in *. subst. apply consistent_seeded.
  - rewrite seed_noop; [done|]. by rewrite Hacts.
Qed.

Lemma signup_consistent n e db : consistent db → consistent (handle db (Signup n e)).
Proof.
  intros [[Hnames Hapk Hppk] Hcap Huniq Href]. simpl. rewrite signup_run.
  destruct (head _) as [a|] eqn:Hsel; [|done].
  destruct (enrollments_of n e db) eqn:Hrows; [|done].
  destruct (Z.geb_spec (Z.of_nat (length (enrollments n db))) (max_participants a))
    as [|Hroom]; [done|].
  apply select_activity_elem in Hsel as [Ha Hn]. simpl.
  split; [split; simpl; try done |..].
  - rewrite fmap_app. apply NoDup_app. split_and!; [done | | apply NoDup_singleton].
    intros i Hi Hi'. apply list_elem_of_singleton in Hi'. subst i.
    by apply next_rowid_fresh in Hi.
  - intros b Hb. unfold enrollments. simpl in *.
    rewrite filter_app, length_app, filter_cons, filter_nil. simpl.
    destruct (decide (n = name b)) as [Heq|Hne]; simpl.
    + assert (b = a) as ->.
      { pose proof (filter_unique_key name _ a Hnames Ha) as Hfa.
        assert (b ∈ filter (λ x, name x = name a) (activity_table db)) as Hin
          by (apply list_elem_of_filter; split; [congruence | done]).
        rewrite Hfa in Hin. by apply list_elem_of_singleton in Hin. }
      unfold enrollments in Hroom. rewrite Heq in Hroom. lia.
    + specialize (Hcap b Hb). unfold enrollments in Hcap. lia.
  - intros n' e'. unfold enrollments_of. simpl.
    rewrite filter_app, length_app, filter_cons, filter_nil. simpl.
    specialize (Huniq n' e'). unfold enrollments_of in Huniq, Hrows.
    destruct (decide (n = n' ∧ e = e')) as [[<- <-]|Hne]; simpl.
    + rewrite Hrows. simpl. lia.
    + lia.
  - intros p Hp. simpl in Hp. apply elem_of_app in Hp as [Hp|Hp].
    + destruct (Href p Hp) as (b & Hb & Hbn). by exists b.
    + apply list_elem_of_singleton in Hp. subst p. by exists a.
Qed.

Lemma unregister_consistent n e db :
  consistent db → consistent (handle db (Unregister n e)).
Proof.
  intros [[Hnames Hapk Hppk] Hcap Huniq Href]. simpl. rewrite unregister_run.
  destruct (head _) as [a|] eqn:Hsel; [|done].
  destruct (enrollments_of n e db) as [|p ps] eqn:Hrows; [done|]. simpl.
  split; [split; simpl; try done |..].
  - eapply sublist_NoDup; [exact Hppk|]. apply fmap_sublist, sublist_filter.
  - intros b Hb. unfold enrollments. simpl.
    specialize (Hcap b Hb). unfold enrollments in Hcap.
    pose proof (length_filter_filter (λ q, activity_name q = name b)
      (λ r, Participant_id r ≠ Participant_id p) (participant_table db)). lia.
  - intros n' e'. unfold enrollments_of. simpl.
    specialize (Huniq n' e'). unfold enrollments_of in Huniq.
    pose proof (length_filter_filter (λ q, activity_name q = n' ∧ email q = e')
      (λ r, Participant_id r ≠ Participant_id p) (participant_table db)). lia.
  - intros q Hq. simpl in Hq. apply list_elem_of_filter in Hq as [_ Hq].
    destruct (Href q Hq) as (b & Hb & Hbn). by exists b.
Qed.

Lemma handle_consistent db r : consistent db → consistent (handle db r).
Proof.
  destruct r; [apply startup_consistent | apply signup_consistent
              | apply unregister_consistent].
Qed.

Lemma serve_consistent rs db : consistent db → consistent (serve rs db).
Proof.
  revert db. induction rs as [|r rs IH]; intros db Hc; [done|].
  simpl. apply IH. by apply handle_consistent.
Qed.

(* ------------------------------------------------------------------ *)
(** ** The listing *)
(* ------------------------------------------------------------------ *)

Lemma get_activities_loop db l acc :
  run (for_acc l acc (λ result activity,
         participants ← all <$>
           exec (SelectParticipant (λ p, activity_name p = name activity));
         mret (<[name activity :=
                   _activity_to_dict activity (email <$> participants)]> result)))
      db new_session
  = (db, new_session, inr (listing_of db l acc)).
Proof.
  revert acc. induction l as [|a l IH]; intros acc; [done|].
  simpl. change (flush db new_session) with new_session.
  change (view db new_session) with db. apply IH.
Qed.

Lemma get_activities_run db :
  with_session get_activities db = (db, inr (listing_of db (activity_table db) ∅)).
Proof.
  unfold with_session, get_activities, all. simpl.
  change (flush db new_session) with new_session.
  change (view db new_session) with db.
  rewrite select_all. by rewrite get_activities_loop.
Qed.

Lemma listing_of_dom db l acc :
  dom (listing_of db l acc) = dom acc ∪ list_to_set (name <$> l).
Proof.
  revert acc. induction l as [|a l IH]; intros acc; simpl.
  - by rewrite (right_id_L ∅ (∪)).
  - rewrite IH, dom_insert_L.
    by rewrite (comm_L (∪) {[name a]} (dom acc)), (assoc_L (∪)).
Qed.

Lemma listing_of_other db l acc k :
  k ∉ name <$> l → listing_of db l acc !! k = acc !! k.
Proof.
  revert acc. induction l as [|a l IH]; intros acc Hk; [done|].
  rewrite fmap_cons in Hk. apply not_elem_of_cons in Hk as [Hne Hk].
  simpl. rewrite IH by done. by rewrite lookup_insert_ne.
Qed.

Lemma listing_of_lookup db l acc a :
  NoDup (name <$> l) → a ∈ l →
  listing_of db l acc !! name a = Some (_activity_to_dict a (roster (name a) db)).
Proof.
  revert acc. induction l as [|b l IH]; intros acc Hnd Ha.
  - by apply not_elem_of_nil in Ha.
  - rewrite fmap_cons in Hnd. apply NoDup_cons in Hnd as [Hb Hnd].
    apply elem_of_cons in Ha as [->|Ha]; simpl.
    + rewrite listing_of_other by done. by rewrite lookup_insert_eq.
    + by apply IH.
Qed.

Local Open Scope string_scope.

Lemma activity_dict_fields a ps :
  let d := _activity_to_dict a ps in
  dom d = ({["description"; "schedule"; "max_participants"; "participants"]} : gset string)
  ∧ d !! "description" = Some (VStr (description a))
  ∧ d !! "schedule" = Some (VStr (schedule a))
  ∧ d !! "max_participants" = Some (VInt (max_participants a))
  ∧ d !! "participants" = Some (VList ps).
Proof.
  unfold _activity_to_dict. split_and!.
  - rewrite !dom_insert_L, dom_empty_L. set_solver.
  - by simplify_map_eq.
  - by simplify_map_eq.
  - by simplify_map_eq.
  - by simplify_map_eq.
Qed.

Local Close Scope string_scope.

(* ------------------------------------------------------------------ *)
(** ** Two requests in flight: agreement with whole requests *)
(* ------------------------------------------------------------------ *)

Lemma steps_over {A} k db (t : Thread A) :
  is_Some (response t) → steps k db t = (db, t).
Proof.
  intros Hr. induction k as [|k IH]; [done|].
  simpl. unfold step. destruct t as [s []]; simpl in *; try done.
  by destruct Hr.
Qed.

Lemma steps_add {A} j k db (t : Thread A) :
  steps (j + k) db t = let '(db', t') := steps j db t in steps k db' t'.
Proof.
  revert db t. induction j as [|j IH]; intros db t; [done|].
  simpl. destruct (step db t) as [db' t']. apply IH.
Qed.

Lemma interleave_first {A B} k sched db (t1 : Thread A) (t2 : Thread B) :
  interleave (replicate k First ++ sched) db t1 t2 =
  let '(db', t1') := steps k db t1 in interleave sched db' t1' t2.
Proof.
  revert db t1. induction k as [|k IH]; intros db t1; [done|].
  simpl. destruct (step db t1) as [db' t1']. apply IH.
Qed.

Lemma interleave_second {A B} k sched db (t1 : Thread A) (t2 : Thread B) :
  interleave (replicate k Second ++ sched) db t1 t2 =
  let '(db', t2') := steps k db t2 in interleave sched db' t1 t2'.
Proof.
  revert db t2. induction k as [|k IH]; intros db t2; [done|].
  simpl. destruct (step db t2) as [db' t2']. apply IH.
Qed.

(** Left alone, a signup is over after its five statements, and has done what
    the whole request does. *)
(** One statement of a session that has nothing pending. *)
Ltac step_session db :=
  cbn [steps step thread_prog thread_session prog_bind exec_stmt head];
  change (flush db new_session) with new_session;
  change (view db new_session) with db.

Ltac session_over :=
  cbn [steps step thread_prog thread_session prog_bind exec_stmt head];
  rewrite ?steps_over by (by eexists); reflexivity.

Lemma signup_steps n e db k :
  5 ≤ k →
  steps k db (spawn (signup_for_activity n e)) =
  let '(db', r) := with_session (signup_for_activity n e) db in (db', finished r).
Proof.
  intros Hk. replace k with (5 + (k - 5)) by lia. rewrite steps_add.
  rewrite signup_run.
  unfold spawn, signup_for_activity, enrollments_of, enrollments, first, all.
  unfold mbind, Prog_bind, fmap, Prog_fmap, exec. step_session db.
  destruct (head _) as [a|]; [|session_over].
  step_session db.
  destruct (filter _ (participant_table db)) as [|p ps]; [|session_over].
  step_session db.
  destruct (_ >=? _)%Z; session_over.
Qed.

(* ------------------------------------------------------------------ *)
(** ** The scenarios of the specification, run *)
(* ------------------------------------------------------------------ *)

Example scenario_signup_new :
  (with_session (signup_for_activity "Chess Club" "new@mergington.edu") seeded_db).2
    = inr {[ "message"%string := VStr "Signed up new@mergington.edu for Chess Club" ]}
  ∧ roster "Chess Club" (handle seeded_db (Signup "Chess Club" "new@mergington.edu"))
    = ["michael@mergington.edu"; "daniel@mergington.edu"; "new@mergington.edu"]%string.
Proof. split; vm_compute; reflexivity. Qed.

Example scenario_signup_twice :
  with_session (signup_for_activity "Chess Club" "michael@mergington.edu") seeded_db
    = (seeded_db, inl (mkHTTPException 400 "Student is already signed up")).
Proof. vm_compute. reflexivity. Qed.

Example scenario_signup_unknown :
  with_session (signup_for_activity "Unknown Club" "a@b.edu") seeded_db
    = (seeded_db, inl (mkHTTPException 404 "Activity not found")).
Proof. vm_compute. reflexivity. Qed.

Example scenario_unregister :
  (with_session (unregister_from_activity "Chess Club" "michael@mergington.edu")
     seeded_db).2
    = inr {[ "message"%string :=
               VStr "Unregistered michael@mergington.edu from Chess Club" ]}
  ∧ roster "Chess Club"
      (handle seeded_db (Unregister "Chess Club" "michael@mergington.edu"))
    = ["daniel@mergington.edu"]%string.
Proof. split; vm_compute; reflexivity. Qed.

Example scenario_unregister_absent :
  with_session (unregister_from_activity "Chess Club" "never-signed-up@e.edu") seeded_db
    = (seeded_db,
       inl (mkHTTPException 400 "Student is not signed up for this activity")).
Proof. vm_compute. reflexivity. Qed.

Example scenario_math_club_full :
  let filled :=
    serve ((λ e, Signup "Math Club" e) <$>
             ["s3"; "s4"; "s5"; "s6"; "s7"; "s8"; "s9"; "s10"]%string) seeded_db in
  length (roster "Math Club" filled) = 10
  ∧ with_session (signup_for_activity "Math Club" "s11") filled
    = (filled, inl (mkHTTPException 400 "Activity is full")).
Proof. split; vm_compute; reflexivity. Qed.

Example scenario_rowid_reuse :
  Participant_id <$>
    participant_table
      (serve [Signup "Chess Club" "a"; Unregister "Chess Club" "a";
              Signup "Math Club" "b"] seeded_db)
  = Some <$> [1; 2; 3; 4; 5; 6; 7; 8; 9; 10; 11; 12; 13; 14; 15; 16; 17; 18; 19]%Z.
Proof. vm_compute. reflexivity. Qed.

(* ------------------------------------------------------------------ *)
(** ** Signup and unregister *)
(* ------------------------------------------------------------------ *)

(** C1.  [signup(activity_name, email)] checks three preconditions in order,
    the first that fails deciding the outcome: an unknown activity gives 404
    whatever else holds; a known activity with an enrollment for the pair
    gives 400 "already signed up" whatever the head count; a known activity
    without that enrollment whose head count is not below [max_participants]
    gives 400 "full"; otherwise the call succeeds, the store gains exactly one
    enrollment record, for that pair, and the confirmation message is
    returned.  The store is one the [unique=True] index on names allows. *)
Theorem signup_checks_in_order (n e : string) (db : Database) :
  NoDup (name <$> activity_table db) →
  let outcome := with_session (signup_for_activity n e) db in
  (¬ activity_exists n db →
     outcome = (db, inl (mkHTTPException 404 "Activity not found")))
  ∧ (activity_exists n db → enrolled n e db →
     outcome = (db, inl (mkHTTPException 400 "Student is already signed up")))
  ∧ (∀ a, a ∈ activity_table db → name a = n → ¬ enrolled n e db →
     ¬ (Z.of_nat (length (enrollments n db)) < max_participants a)%Z →
     outcome = (db, inl (mkHTTPException 400 "Activity is full")))
  ∧ (∀ a, a ∈ activity_table db → name a = n → ¬ enrolled n e db →
     (Z.of_nat (length (enrollments n db)) < max_participants a)%Z →
     ∃ p, activity_name p = n ∧ email p = e ∧
       outcome =
         (mkDatabase (activity_table db) (participant_table db ++ [p]),
          inr {[ "message"%string :=
                   VStr ("Signed up " +:+ e +:+ " for " +:+ n) ]})).
Proof.
  intros Hnd outcome. subst outcome. split_and!.
  - apply signup_not_found.
  - apply signup_already.
  - intros a. by apply signup_full.
  - intros a Ha Hn Hen Hroom. exists (new_enrollment n e db).
    split_and!; [done..|]. by apply (signup_ok n e a).
Qed.

Lemma signup_checks_in_order_witness :
  NoDup (name <$> activity_table seeded_db)
  ∧ let outcome :=
      with_session (signup_for_activity "Chess Club" "new@mergington.edu") seeded_db in
    ∃ p, activity_name p = "Chess Club"%string ∧ email p = "new@mergington.edu"%string ∧
      outcome =
        (mkDatabase (activity_table seeded_db) (participant_table seeded_db ++ [p]),
         inr {[ "message"%string :=
                  VStr "Signed up new@mergington.edu for Chess Club" ]}).
Proof.
  assert (NoDup (name <$> activity_table seeded_db)) as Hnd
    by (apply (bool_decide_unpack _); vm_compute; exact I).
  split; [exact Hnd|].
  refine (proj2 (proj2 (proj2
    (signup_checks_in_order "Chess Club" "new@mergington.edu" seeded_db Hnd)))
    (mkActivity (Some 1%Z) "Chess Club"
       "Learn strategies and compete in chess tournaments"
       "Fridays, 3:30 PM - 5:00 PM" 12) _ _ _ _).
  - apply (bool_decide_unpack _); vm_compute; exact I.
  - reflexivity.
  - apply enrollments_of_nil. vm_compute. reflexivity.
  - vm_compute. reflexivity.
Defined.

(** C4.  [unregister(activity_name, email)] fails with 404 when no activity
    has that name; otherwise with 400 "not signed up" when no enrollment for
    the pair exists; otherwise it succeeds, the store loses exactly one
    enrollment record, one for that pair, every other row stays where it was,
    and the confirmation message is returned.  The store is one the primary
    key of the participant table allows. *)
Theorem unregister_checks_in_order (n e : string) (db : Database) :
  NoDup (Participant_id <$> participant_table db) →
  let outcome := with_session (unregister_from_activity n e) db in
  (¬ activity_exists n db →
     outcome = (db, inl (mkHTTPException 404 "Activity not found")))
  ∧ (activity_exists n db → ¬ enrolled n e db →
     outcome =
       (db, inl (mkHTTPException 400 "Student is not signed up for this activity")))
  ∧ (activity_exists n db → enrolled n e db →
     ∃ l1 p l2,
       participant_table db = l1 ++ p :: l2 ∧
       activity_name p = n ∧ email p = e ∧
       outcome =
         (mkDatabase (activity_table db) (l1 ++ l2),
          inr {[ "message"%string :=
                   VStr ("Unregistered " +:+ e +:+ " from " +:+ n) ]})).
Proof.
  intros Hpk outcome. subst outcome. split_and!.
  - apply unregister_not_found.
  - apply unregister_not_signed_up.
  - by apply unregister_ok.
Qed.

Lemma unregister_checks_in_order_witness :
  NoDup (Participant_id <$> participant_table seeded_db)
  ∧ with_session (unregister_from_activity "Chess Club" "never-signed-up@e.edu")
      seeded_db =
    (seeded_db,
     inl (mkHTTPException 400 "Student is not signed up for this activity")).
Proof.
  assert (NoDup (Participant_id <$> participant_table seeded_db)) as Hpk
    by (apply (bool_decide_unpack _); vm_compute; exact I).
  split; [exact Hpk|].
  refine (proj1 (proj2
    (unregister_checks_in_order "Chess Club" "never-signed-up@e.edu" seeded_db Hpk))
    _ _).
  - apply (bool_decide_unpack _); vm_compute; exact I.
  - apply (bool_decide_unpack _); vm_compute; exact I.
Defined.

(** C5.  Atomicity on failure: whenever [signup] or [unregister] answers with
    an error, the committed store after the call is the store before it. *)
Theorem failure_leaves_store_unchanged (n e : string) (db : Database)
    (err : HTTPException) :
  ((with_session (signup_for_activity n e) db).2 = inl err →
     (with_session (signup_for_activity n e) db).1 = db)
  ∧ ((with_session (unregister_from_activity n e) db).2 = inl err →
     (with_session (unregister_from_activity n e) db).1 = db).
Proof.
  split.
  - rewrite signup_run. destruct (head _); [|done].
    destruct (enrollments_of n e db); [|done].
    by destruct (_ >=? _)%Z.
  - rewrite unregister_run. destruct (head _); [|done].
    by destruct (enrollments_of n e db).
Qed.

Lemma failure_leaves_store_unchanged_witness :
  (with_session (signup_for_activity "Unknown Club" "a@b.edu") seeded_db).1 = seeded_db.
Proof.
  refine (proj1 (failure_leaves_store_unchanged "Unknown Club" "a@b.edu" seeded_db
                   (mkHTTPException 404 "Activity not found")) _).
  vm_compute. reflexivity.
Defined.

(* ------------------------------------------------------------------ *)
(** ** Invariants of the reachable states *)
(* ------------------------------------------------------------------ *)

(** C2.  Capacity invariant: in every state reached from the empty store by
    any sequence of startups (seeding), signups and unregisters, every
    activity has at most [max_participants] enrollment records under its
    name. *)
Theorem capacity_invariant (rs : list Request) (a : Activity) :
  a ∈ activity_table (serve rs empty_db) →
  (Z.of_nat (length (enrollments (name a) (serve rs empty_db)))
     ≤ max_participants a)%Z.
Proof.
  apply (cons_capacity _ (serve_consistent rs empty_db consistent_empty)).
Qed.

Lemma capacity_invariant_witness :
  let rs := [Startup; Signup "Math Club" "new@mergington.edu";
             Unregister "Math Club" "james@mergington.edu"] in
  let a := mkActivity (Some 8%Z) "Math Club"
             "Solve challenging problems and participate in math competitions"
             "Tuesdays, 3:30 PM - 4:30 PM" 10 in
  a ∈ activity_table (serve rs empty_db)
  ∧ (Z.of_nat (length (enrollments (name a) (serve rs empty_db)))
       ≤ max_participants a)%Z.
Proof.
  intros rs a.
  assert (a ∈ activity_table (serve rs empty_db)) as Ha
    by (apply (bool_decide_unpack _); vm_compute; exact I).
  split; [exact Ha|]. exact (capacity_invariant rs a Ha).
Defined.

(** C3.  Uniqueness invariant: in every state reached from the empty store by
    any sequence of startups (seeding), signups and unregisters, at most one
    enrollment record carries a given activity name and email. *)
Theorem uniqueness_invariant (rs : list Request) (n e : string) :
  length (enrollments_of n e (serve rs empty_db)) ≤ 1.
Proof.
  apply (cons_unique _ (serve_consistent rs empty_db consistent_empty)).
Qed.

(* ------------------------------------------------------------------ *)
(** ** Seeding twice *)
(* ------------------------------------------------------------------ *)

(** C7.  Idempotent seeding: from any store, seeding a second time leaves
    the store the first seeding produced, and raises nothing; on a store that
    already holds an activity, seeding changes nothing at all. *)
Theorem seeding_idempotent (db : Database) :
  with_session on_startup (with_session on_startup db).1
    = ((with_session on_startup db).1, inr ())
  ∧ (activity_table db ≠ [] → with_session on_startup db = (db, inr ())).
Proof.
  split; [|apply seed_noop].
  destruct (activity_table db) as [|a acts] eqn:Hacts.
  - apply seed_noop. by apply seed_populates.
  - rewrite (seed_noop db) by (by rewrite Hacts). simpl.
    apply seed_noop. by rewrite Hacts.
Qed.

Lemma seeding_idempotent_witness :
  activity_table seeded_db ≠ []
  ∧ with_session on_startup seeded_db = (seeded_db, inr ()).
Proof.
  assert (activity_table seeded_db ≠ []) as Hne by (vm_compute; discriminate).
  split; [exact Hne|]. exact (proj2 (seeding_idempotent seeded_db) Hne).
Defined.

(* ------------------------------------------------------------------ *)
(** ** Rosters across a request *)
(* ------------------------------------------------------------------ *)

Lemma signup_appends n e db resp :
  (with_session (signup_for_activity n e) db).2 = inr resp →
  handle db (Signup n e) =
    mkDatabase (activity_table db) (participant_table db ++ [new_enrollment n e db]).
Proof.
  simpl. rewrite signup_run. destruct (head _); [|done].
  destruct (enrollments_of n e db); [|done].
  by destruct (_ >=? _)%Z.
Qed.

Lemma unregister_removes n e db resp :
  NoDup (Participant_id <$> participant_table db) →
  (with_session (unregister_from_activity n e) db).2 = inr resp →
  ∃ l1 p l2,
    participant_table db = l1 ++ p :: l2 ∧ activity_name p = n ∧ email p = e ∧
    handle db (Unregister n e) = mkDatabase (activity_table db) (l1 ++ l2).
Proof.
  intros Hpk. simpl. rewrite unregister_run. destruct (head _); [|done].
  destruct (enrollments_of n e db) as [|p ps] eqn:Hrows; [done|]. intros _.
  apply filter_cons_split in Hrows as (l1 & l2 & Htbl & [Hn He] & _).
  exists l1, p, l2. split_and!; try done. simpl.
  rewrite Htbl in Hpk |- *.
  by rewrite (filter_delete_key Participant_id l1 l2 p Hpk).
Qed.

Lemma roster_after_signup n e db resp :
  (with_session (signup_for_activity n e) db).2 = inr resp →
  roster n (handle db (Signup n e)) = roster n db ++ [e].
Proof.
  intros Hok. rewrite (signup_appends n e db resp Hok).
  unfold roster, enrollments. simpl.
  rewrite filter_app, fmap_app, filter_cons, filter_nil. simpl.
  by destruct (decide (n = n)).
Qed.

Lemma filter_swap {A} (P Q : A → Prop)
    `{!∀ x, Decision (P x)} `{!∀ x, Decision (Q x)} (l : list A) :
  filter P (filter Q l) = filter Q (filter P l).
Proof.
  rewrite !list_filter_filter. apply list_filter_iff. tauto.
Qed.

Lemma roster_after_unregister n n' e db :
  roster n (handle db (Unregister n' e)) `sublist_of` roster n db.
Proof.
  simpl. rewrite unregister_run. destruct (head _); [|done].
  destruct (enrollments_of n' e db) as [|p ps]; [done|].
  unfold roster, enrollments. simpl.
  apply fmap_sublist.
  rewrite (filter_swap (λ q, activity_name q = n)).
  apply sublist_filter.
Qed.

Local Open Scope string_scope.

(** Against C8 as stated: in the store two signups racing for the last Math
    Club slot leave behind, [GET /activities] returns eleven emails for Math
    Club beside [max_participants = 10]. *)
Lemma listing_exceeds_capacity_after_race :
  ∃ (result : gmap string (gmap string Value)) (d : gmap string Value)
    (l : list string),
    with_session get_activities math_club_raced = (math_club_raced, inr result)
    ∧ result !! "Math Club" = Some d
    ∧ d !! "max_participants" = Some (VInt 10)
    ∧ d !! "participants" = Some (VList l)
    ∧ length l = 11.
Proof.
  exists (listing_of math_club_raced (activity_table math_club_raced) ∅),
    (_activity_to_dict
       (mkActivity (Some 8%Z) "Math Club"
          "Solve challenging problems and participate in math competitions"
          "Tuesdays, 3:30 PM - 4:30 PM" 10)
       (roster "Math Club" math_club_raced)),
    (roster "Math Club" math_club_raced).
  split_and!.
  - apply get_activities_run.
  - vm_compute. reflexivity.
  - vm_compute. reflexivity.
  - vm_compute. reflexivity.
  - vm_compute. reflexivity.
Qed.

(** C8, amended.  On every store with unique activity names [GET /activities]
    changes nothing and returns a dict whose keys are exactly the activity
    names; under each name sits a dict with exactly the keys description,
    schedule, max_participants and participants, holding that activity's
    fields and the emails of its enrollment records oldest first: a signup
    that succeeds puts its email at the end of its activity's list, and an
    unregister leaves the emails that remain in the order they had.  The
    listing reports the rows the store holds and bounds nothing itself: the
    list is no longer than [max_participants] in every state reached from the
    empty store by requests handled one after the other. *)
Theorem listing_reports_store_rows :
  (∀ db : Database,
     NoDup (name <$> activity_table db) →
     ∃ result : gmap string (gmap string Value),
       with_session get_activities db = (db, inr result)
       ∧ dom result = list_to_set (name <$> activity_table db)
       ∧ (∀ a, a ∈ activity_table db →
           ∃ d : gmap string Value,
             result !! name a = Some d
             ∧ dom d = ({["description"; "schedule"; "max_participants";
                          "participants"]} : gset string)
             ∧ d !! "description" = Some (VStr (description a))
             ∧ d !! "schedule" = Some (VStr (schedule a))
             ∧ d !! "max_participants" = Some (VInt (max_participants a))
             ∧ d !! "participants" = Some (VList (roster (name a) db)))
       ∧ (∀ n e resp,
           (with_session (signup_for_activity n e) db).2 = inr resp →
           roster n (handle db (Signup n e)) = (roster n db ++ [e])%list)
       ∧ (∀ n n' e,
           roster n (handle db (Unregister n' e)) `sublist_of` roster n db))
  ∧ (∀ (rs : list Request) (a : Activity),
       a ∈ activity_table (serve rs empty_db) →
       (Z.of_nat (length (roster (name a) (serve rs empty_db)))
          ≤ max_participants a)%Z).
Proof.
  split.
  - intros db Hnames.
    exists (listing_of db (activity_table db) ∅). split_and!.
    + apply get_activities_run.
    + by rewrite listing_of_dom, dom_empty_L, (left_id_L ∅ (∪)).
    + intros a Ha. exists (_activity_to_dict a (roster (name a) db)).
      destruct (activity_dict_fields a (roster (name a) db))
        as (Hdom & Hd & Hs & Hm & Hp).
      split_and!; try done. by apply listing_of_lookup.
    + intros n e resp Hok. by apply (roster_after_signup n e db resp).
    + intros n n' e. apply roster_after_unregister.
  - intros rs a Ha. unfold roster. rewrite length_fmap.
    by apply (cons_capacity _ (serve_consistent rs empty_db consistent_empty)).
Qed.

Lemma listing_reports_store_rows_witness :
  NoDup (name <$> activity_table math_club_raced)
  ∧ ∃ (result : gmap string (gmap string Value)) (d : gmap string Value),
      with_session get_activities math_club_raced = (math_club_raced, inr result)
      ∧ result !! "Math Club" = Some d
      ∧ d !! "participants" = Some (VList (roster "Math Club" math_club_raced)).
Proof.
  assert (NoDup (name <$> activity_table math_club_raced)) as Hnames
    by (apply (bool_decide_unpack _); vm_compute; exact I).
  split; [exact Hnames|].
  destruct (proj1 listing_reports_store_rows math_club_raced Hnames)
    as (result & Hrun & _ & Hall & _).
  destruct (Hall (mkActivity (Some 8%Z) "Math Club"
                    "Solve challenging problems and participate in math competitions"
                    "Tuesdays, 3:30 PM - 4:30 PM" 10))
    as (d & Hd & _ & _ & _ & _ & Hp).
  { apply (bool_decide_unpack _); vm_compute; exact I. }
  exists result, d. split_and!; [exact Hrun | exact Hd | exact Hp].
Defined.

Local Close Scope string_scope.

(* ------------------------------------------------------------------ *)
(** ** The email is not validated *)
(* ------------------------------------------------------------------ *)

(** Against C9 as stated: on the seeded store, signing up the empty email
    for Chess Club succeeds and leaves an enrollment record whose email is
    the empty string. *)
Lemma signup_enrolls_empty_email :
  (with_session (signup_for_activity "Chess Club" "") seeded_db).2
    = inr {[ "message"%string := VStr "Signed up  for Chess Club" ]}
  ∧ mkParticipant (Some 19%Z) "" "Chess Club"
      ∈ participant_table (handle seeded_db (Signup "Chess Club" "")).
Proof.
  split.
  - vm_compute. reflexivity.
  - apply (bool_decide_unpack _). vm_compute. exact I.
Qed.

(** C9, amended.  [signup] does not look at the email beyond comparing it
    with the emails already enrolled: with the empty string as email it runs
    the same three checks, and when they pass it succeeds and adds an
    enrollment record whose email is the empty string. *)
Theorem signup_empty_email_unvalidated (n : string) (a : Activity) (db : Database) :
  NoDup (name <$> activity_table db) →
  a ∈ activity_table db → name a = n →
  ¬ enrolled n "" db →
  (Z.of_nat (length (enrollments n db)) < max_participants a)%Z →
  ∃ p, activity_name p = n ∧ email p = ""%string ∧
    with_session (signup_for_activity n "") db =
      (mkDatabase (activity_table db) (participant_table db ++ [p]),
       inr {[ "message"%string := VStr ("Signed up " +:+ "" +:+ " for " +:+ n) ]}).
Proof.
  intros Hnd Ha Hn Hen Hroom. exists (new_enrollment n "" db).
  split_and!; [done..|]. by apply (signup_ok n "" a).
Qed.

Lemma signup_empty_email_unvalidated_witness :
  ∃ p, activity_name p = "Math Club"%string ∧ email p = ""%string ∧
    with_session (signup_for_activity "Math Club" "") seeded_db =
      (mkDatabase (activity_table seeded_db) (participant_table seeded_db ++ [p]),
       inr {[ "message"%string := VStr "Signed up  for Math Club" ]}).
Proof.
  refine (signup_empty_email_unvalidated "Math Club"
    (mkActivity (Some 8%Z) "Math Club"
       "Solve challenging problems and participate in math competitions"
       "Tuesdays, 3:30 PM - 4:30 PM" 10) seeded_db _ _ _ _ _).
  - apply (bool_decide_unpack _); vm_compute; exact I.
  - apply (bool_decide_unpack _); vm_compute; exact I.
  - reflexivity.
  - apply enrollments_of_nil. vm_compute. reflexivity.
  - vm_compute. reflexivity.
Defined.

(* ------------------------------------------------------------------ *)
(** ** Frame *)
(* ------------------------------------------------------------------ *)

Lemma enrollments_without n' (l1 l2 : list Participant) p :
  activity_name p ≠ n' →
  filter (λ q, activity_name q = n') (l1 ++ p :: l2)
    = filter (λ q, activity_name q = n') (l1 ++ l2).
Proof.
  intros Hne. rewrite !filter_app, filter_cons.
  by destruct (decide (activity_name p = n')).
Qed.

(** C10.  Frame: a signup that succeeds changes the store only by one new
    enrollment record for its pair, added after the existing ones; an
    unregister that succeeds changes it only by removing one enrollment record
    of its pair.  Both leave the activity table, hence every activity's name,
    description, schedule and max_participants, as it was, and leave the
    enrollment records of every other activity as they were.  The store is
    one the primary key of the participant table allows. *)
Theorem success_frame (n e : string) (db : Database) (resp : gmap string Value) :
  NoDup (Participant_id <$> participant_table db) →
  ((with_session (signup_for_activity n e) db).2 = inr resp →
     let db' := handle db (Signup n e) in
     activity_table db' = activity_table db
     ∧ (∃ p, activity_name p = n ∧ email p = e ∧
             participant_table db' = participant_table db ++ [p])
     ∧ (∀ n', n' ≠ n → enrollments n' db' = enrollments n' db))
  ∧ ((with_session (unregister_from_activity n e) db).2 = inr resp →
     let db' := handle db (Unregister n e) in
     activity_table db' = activity_table db
     ∧ (∃ l1 p l2, activity_name p = n ∧ email p = e ∧
             participant_table db = l1 ++ p :: l2 ∧
             participant_table db' = l1 ++ l2)
     ∧ (∀ n', n' ≠ n → enrollments n' db' = enrollments n' db)).
Proof.
  intros Hpk. split; intros Hok db'; subst db'.
  - rewrite (signup_appends n e db resp Hok). split_and!; [done | |].
    + by exists (new_enrollment n e db).
    + intros n' Hne. unfold enrollments. simpl.
      rewrite filter_app, filter_cons, filter_nil. simpl.
      destruct (decide (n = n')); [congruence|]. by rewrite app_nil_r.
  - destruct (unregister_removes n e db resp Hpk Hok)
      as (l1 & p & l2 & Htbl & Hn & He & ->).
    split_and!; [done | |].
    + by exists l1, p, l2.
    + intros n' Hne. unfold enrollments. simpl. rewrite Htbl.
      symmetry. apply enrollments_without. congruence.
Qed.

Lemma success_frame_witness :
  let db' := handle seeded_db (Unregister "Chess Club" "michael@mergington.edu") in
  activity_table db' = activity_table seeded_db
  ∧ (∃ l1 p l2,
       activity_name p = "Chess Club"%string ∧ email p = "michael@mergington.edu"%string ∧
       participant_table seeded_db = l1 ++ p :: l2 ∧
       participant_table db' = l1 ++ l2)
  ∧ (∀ n', n' ≠ "Chess Club"%string → enrollments n' db' = enrollments n' seeded_db).
Proof.
  refine (proj2 (success_frame "Chess Club" "michael@mergington.edu" seeded_db
    {[ "message"%string := VStr "Unregistered michael@mergington.edu from Chess Club" ]}
    _) _).
  - apply (bool_decide_unpack _); vm_compute; exact I.
  - vm_compute. reflexivity.
Defined.

(* ------------------------------------------------------------------ *)
(** ** The last slot, two requests *)
(* ------------------------------------------------------------------ *)

(** Against C6 as stated: with [max_participants = 1] and no enrollment, the
    two signups both succeed when both capacity checks run before either
    commit, and the activity ends with two enrollment records. *)
Lemma signup_race_both_succeed :
  let '(db', t1, t2) :=
    interleave racing race_db
      (spawn (signup_for_activity "A" "x@e")) (spawn (signup_for_activity "A" "y@e")) in
  response t1 = Some (inr {[ "message"%string := VStr "Signed up x@e for A" ]})
  ∧ response t2 = Some (inr {[ "message"%string := VStr "Signed up y@e for A" ]})
  ∧ roster "A" db' = ["x@e"; "y@e"]%string
  ∧ max_participants <$> activity_table db' = [1%Z].
Proof. vm_compute. done. Qed.

(** The same race in a state the application reaches: Math Club (ten slots)
    with nine enrolled ends with eleven. *)
Example race_for_last_math_club_slot :
  let nine :=
    serve ((λ e, Signup "Math Club" e) <$>
             ["s3"; "s4"; "s5"; "s6"; "s7"; "s8"; "s9"]%string) seeded_db in
  let '(db', t1, t2) :=
    interleave racing nine
      (spawn (signup_for_activity "Math Club" "x@e"))
      (spawn (signup_for_activity "Math Club" "y@e")) in
  length (roster "Math Club" nine) = 9
  ∧ is_Some (response t1 ≫= λ r, if r is inr _ then Some () else None)
  ∧ is_Some (response t2 ≫= λ r, if r is inr _ then Some () else None)
  ∧ length (roster "Math Club" db') = 11.
Proof. vm_compute. split_and!; eauto. Qed.

Section one_slot.
Variables (a : Activity) (db : Database).
Hypothesis Hnames : NoDup (name <$> activity_table db).
Hypothesis Ha : a ∈ activity_table db.
Hypothesis Hone : max_participants a = 1%Z.
Hypothesis Hnone : enrollments (name a) db = [].

Lemma one_slot_free e : enrollments_of (name a) e db = [].
Proof.
  apply enrollments_of_nil. intros (p & Hp & Hn & _).
  assert (p ∈ enrollments (name a) db) as Hin by (by apply list_elem_of_filter).
  rewrite Hnone in Hin. by apply not_elem_of_nil in Hin.
Qed.

(** Alone, a signup takes the slot. *)
Lemma one_slot_taken e :
  with_session (signup_for_activity (name a) e) db =
    (mkDatabase (activity_table db)
       (participant_table db ++ [new_enrollment (name a) e db]),
     inr (ok_message "Signed up " e " for " (name a))).
Proof.
  apply (signup_ok _ e a); try done.
  - apply enrollments_of_nil, one_slot_free.
  - rewrite Hnone, Hone. simpl. lia.
Qed.

(** After it, a signup with another email finds the activity full. *)
Lemma one_slot_full e e' :
  e ≠ e' →
  with_session (signup_for_activity (name a) e')
    (mkDatabase (activity_table db)
       (participant_table db ++ [new_enrollment (name a) e db]))
  = (mkDatabase (activity_table db)
       (participant_table db ++ [new_enrollment (name a) e db]),
     inl activity_full).
Proof.
  intros Hne. apply (signup_full _ e' a); try done.
  - intros (p & Hp & Hn & He). simpl in Hp. apply elem_of_app in Hp as [Hp|Hp].
    + assert (p ∈ enrollments (name a) db) as Hin by (by apply list_elem_of_filter).
      rewrite Hnone in Hin. by apply not_elem_of_nil in Hin.
    + apply list_elem_of_singleton in Hp. subst p. simpl in He. congruence.
  - unfold enrollments in *. simpl. rewrite filter_app, Hnone, filter_cons, filter_nil.
    simpl. destruct (decide (name a = name a)); [|done]. simpl. lia.
Qed.

Lemma one_slot_roster e :
  roster (name a)
    (mkDatabase (activity_table db)
       (participant_table db ++ [new_enrollment (name a) e db])) = [e].
Proof.
  unfold roster, enrollments in *. simpl.
  rewrite filter_app, Hnone, filter_cons, filter_nil. simpl.
  by destruct (decide (name a = name a)).
Qed.
End one_slot.

(** C6, amended.  For an activity with [max_participants = 1] and no
    enrollment, and two signups with different emails: when one request runs
    all its statements before the other starts, in either order, the first
    succeeds and the second fails with 400 "full"; the code takes no lock
    around check and insert, and under the schedule [racing], where both
    requests check before either commits, both succeed and the roster holds
    both emails. *)
Theorem one_slot_two_signups (a : Activity) (x y : string) (db : Database) :
  NoDup (name <$> activity_table db) →
  a ∈ activity_table db →
  max_participants a = 1%Z →
  enrollments (name a) db = [] →
  x ≠ y →
  let t1 := spawn (signup_for_activity (name a) x) in
  let t2 := spawn (signup_for_activity (name a) y) in
  (∃ db',
     interleave first_then_second db t1 t2 =
       (db', finished (inr (ok_message "Signed up " x " for " (name a))),
             finished (inl activity_full))
     ∧ roster (name a) db' = [x])
  ∧ (∃ db',
     interleave second_then_first db t1 t2 =
       (db', finished (inl activity_full),
             finished (inr (ok_message "Signed up " y " for " (name a))))
     ∧ roster (name a) db' = [y])
  ∧ (∃ db',
     interleave racing db t1 t2 =
       (db', finished (inr (ok_message "Signed up " x " for " (name a))),
             finished (inr (ok_message "Signed up " y " for " (name a))))
     ∧ roster (name a) db' = [x; y]).
Proof.
  intros Hnd Ha Hone Hnone Hxy t1 t2. subst t1 t2. split_and!.
  - eexists. split.
    + unfold first_then_second.
      rewrite interleave_first, signup_steps, (one_slot_taken a db) by done.
      rewrite <- (app_nil_r (replicate 5 Second)).
      rewrite interleave_second, signup_steps, (one_slot_full a db) by done.
      reflexivity.
    + by apply one_slot_roster.
  - eexists. split.
    + unfold second_then_first.
      rewrite interleave_second, signup_steps, (one_slot_taken a db) by done.
      rewrite <- (app_nil_r (replicate 5 First)).
      rewrite interleave_first, signup_steps, (one_slot_full a db) by done.
      reflexivity.
    + by apply one_slot_roster.
  - pose proof (select_activity_Some (name a) a db Hnd Ha eq_refl) as Hsel.
    pose proof (one_slot_free a db Hnone) as Hfree.
    unfold enrollments_of in Hfree.
    eexists. split.
    + unfold racing, spawn, signup_for_activity, first, all.
      unfold mbind, Prog_bind, fmap, Prog_fmap, exec.
      cbn [interleave]. unfold enrollments in Hnone.
      do 6 (step_session db; rewrite ?Hsel, ?Hfree, ?Hnone, ?Hone).
      change (Z.of_nat (length []) >=? 1)%Z with false.
      cbn -[next_rowid String.append]. reflexivity.
    + unfold roster, enrollments in *. simpl.
      rewrite !filter_app, Hnone, !filter_cons, !filter_nil. simpl.
      by destruct (decide (name a = name a)).
Qed.

Lemma one_slot_two_signups_witness :
  ∃ db',
    interleave first_then_second race_db
      (spawn (signup_for_activity "A" "x@e")) (spawn (signup_for_activity "A" "y@e"))
    = (db', finished (inr {[ "message"%string := VStr "Signed up x@e for A" ]}),
            finished (inl (mkHTTPException 400 "Activity is full")))
    ∧ roster "A" db' = ["x@e"%string].
Proof.
  refine (proj1 (one_slot_two_signups
    (mkActivity (Some 1%Z) "A" "" "" 1) "x@e" "y@e" race_db _ _ _ _ _)).
  - apply (bool_decide_unpack _); vm_compute; exact I.
  - apply (bool_decide_unpack _); vm_compute; exact I.
  - reflexivity.
  - vm_compute. reflexivity.
  - apply (bool_decide_unpack _); vm_compute; exact I.
Defined.


(* ------------------------------------------------------------------ *)
(** ** More invariants of the reachable states *)
(* ------------------------------------------------------------------ *)

Lemma handle_activity_table db r :
  r ≠ Startup → activity_table (handle db r) = activity_table db.
Proof.
  destruct r as [|n e|n e]; [done| |]; intros _; simpl.
  - rewrite signup_run. destruct (head _); [|done].
    destruct (enrollments_of n e db); [|done]. by destruct (_ >=? _)%Z.
  - rewrite unregister_run. destruct (head _); [|done].
    by destruct (enrollments_of n e db).
Qed.

Lemma handle_unseeded db r :
  r ≠ Startup → activity_table db = [] → handle db r = db.
Proof.
  destruct r as [|n e|n e]; [done| |]; intros _ Hacts; simpl.
  - by rewrite signup_run, Hacts.
  - by rewrite unregister_run, Hacts.
Qed.

(** X1.  Referential integrity: in every state reached from the empty store
    by startups, signups and unregisters, every enrollment record names an
    activity that exists. *)
Theorem referential_integrity_invariant (rs : list Request) (p : Participant) :
  p ∈ participant_table (serve rs empty_db) →
  activity_exists (activity_name p) (serve rs empty_db).
Proof.
  apply (cons_referential _ (serve_consistent rs empty_db consistent_empty)).
Qed.

Lemma referential_integrity_invariant_witness :
  let rs := [Startup; Signup "Art Club" "new@mergington.edu"] in
  let p := mkParticipant (Some 19%Z) "new@mergington.edu" "Art Club" in
  p ∈ participant_table (serve rs empty_db)
  ∧ activity_exists (activity_name p) (serve rs empty_db).
Proof.
  intros rs p.
  assert (p ∈ participant_table (serve rs empty_db)) as Hp
    by (apply (bool_decide_unpack _); vm_compute; exact I).
  split; [exact Hp|]. exact (referential_integrity_invariant rs p Hp).
Defined.

(** X2.  The keys the tables declare are never violated: in every reachable
    state the activity names are pairwise distinct, and so are the ids of the
    activity rows and the ids of the participant rows. *)
Theorem declared_keys_invariant (rs : list Request) :
  NoDup (name <$> activity_table (serve rs empty_db))
  ∧ NoDup (Activity_id <$> activity_table (serve rs empty_db))
  ∧ NoDup (Participant_id <$> participant_table (serve rs empty_db)).
Proof.
  destruct (cons_schema _ (serve_consistent rs empty_db consistent_empty)).
  done.
Qed.

Lemma rowid_ordered_seeded : rowid_ordered seeded_db.
Proof.
  exists (Z.of_nat <$> seq 1 18). split; [by vm_compute|].
  apply (bool_decide_unpack _). by vm_compute.
Qed.

Lemma fmap_filter_id (tbl : list Participant) (x : option Z) :
  Participant_id <$> filter (λ r, Participant_id r ≠ x) tbl
  = filter (λ i, i ≠ x) (Participant_id <$> tbl).
Proof.
  induction tbl as [|r tbl IH]; [done|].
  rewrite fmap_cons, !filter_cons.
  destruct (decide (Participant_id r ≠ x)); rewrite ?fmap_cons, IH; done.
Qed.

Lemma filter_Some_fmap (ids : list Z) (x : option Z) :
  filter (λ i, i ≠ x) (Some <$> ids) = Some <$> filter (λ i, Some i ≠ x) ids.
Proof.
  induction ids as [|i ids IH]; [done|].
  rewrite fmap_cons, !filter_cons.
  destruct (decide (Some i ≠ x)); rewrite ?fmap_cons, IH; done.
Qed.

Lemma StronglySorted_filter {A} (R : A → A → Prop) (P : A → Prop)
    `{!∀ x, Decision (P x)} (l : list A) :
  StronglySorted R l → StronglySorted R (filter P l).
Proof.
  induction 1 as [|x l Hs IH Hall]; [constructor|].
  rewrite filter_cons. destruct (decide (P x)); [|done].
  constructor; [done|].
  apply Forall_forall. intros y Hy. apply list_elem_of_filter in Hy as [_ Hy].
  by eapply Forall_forall in Hall.
Qed.

Lemma handle_rowid_ordered db r :
  consistent db → rowid_ordered db → rowid_ordered (handle db r).
Proof.
  intros Hc (ids & Hids & Hsorted). destruct r as [|n e|n e].
  - simpl. destruct (activity_table db) as [|a acts] eqn:Hacts.
    + assert (participant_table db = []) as Hps.
      { destruct (participant_table db) as [|p ps] eqn:Hp; [done|].
        destruct (cons_referential db Hc p) as (a & Ha & _).
        - rewrite Hp. left.
        - rewrite Hacts in Ha. by apply not_elem_of_nil in Ha. }
      destruct db as [acts ps]. simpl in *. subst. apply rowid_ordered_seeded.
    + rewrite seed_noop by (by rewrite Hacts). by exists ids.
  - simpl. rewrite signup_run. destruct (head _); [|by exists ids].
    destruct (enrollments_of n e db); [|by exists ids].
    destruct (_ >=? _)%Z; [by exists ids|].
    exists (ids ++ [next_rowid (Participant_id <$> participant_table db)]).
    simpl. split; [by rewrite !fmap_app, Hids|].
    apply StronglySorted_app. split_and!; [|done|repeat constructor].
    intros i j Hi Hj. apply list_elem_of_singleton in Hj. subst j.
    apply next_rowid_above. rewrite Hids. apply list_elem_of_fmap. eauto.
  - simpl. rewrite unregister_run. destruct (head _); [|by exists ids].
    destruct (enrollments_of n e db) as [|p ps]; [by exists ids|].
    exists (filter (λ i, Some i ≠ Participant_id p) ids). simpl. split.
    + by rewrite fmap_filter_id, Hids, filter_Some_fmap.
    + by apply StronglySorted_filter.
Qed.

(** X3.  Rowids follow the table: in every reachable state the participant
    rows carry non-null ids that increase strictly along the table, so the
    order in which a roster is listed is the order of the rowids. *)
Theorem rowid_order_invariant (rs : list Request) :
  rowid_ordered (serve rs empty_db).
Proof.
  assert (∀ db, consistent db → rowid_ordered db → rowid_ordered (serve rs db))
    as Hserve.
  { induction rs as [|r rs IH]; intros db Hc Ho; [done|].
    simpl. apply IH; [by apply handle_consistent | by apply handle_rowid_ordered]. }
  apply Hserve; [apply consistent_empty|].
  exists []. split; [done | constructor].
Qed.

Lemma serve_cons r rs db : serve (r :: rs) db = serve rs (handle db r).
Proof. done. Qed.

Lemma serve_seeded_catalog rs db :
  activity_table db ≠ [] → activity_table (serve rs db) = activity_table db.
Proof.
  revert db. induction rs as [|r rs IH]; intros db Hne; [done|].
  simpl. assert (activity_table (handle db r) = activity_table db) as Heq.
  { destruct (decide (r = Startup)) as [->|Hr].
    - simpl. by rewrite seed_noop.
    - by apply handle_activity_table. }
  rewrite IH; rewrite Heq; done.
Qed.

(** X4.  The catalog is fixed by the first startup: a sequence of requests
    without a startup leaves the empty store empty (every signup and
    unregister fails), and a sequence with a startup ends with exactly the
    activity rows of the seeded store, whatever else was requested. *)
Theorem catalog_fixed_by_startup (rs : list Request) :
  (Startup ∉ rs → serve rs empty_db = empty_db)
  ∧ (Startup ∈ rs →
     activity_table (serve rs empty_db) = activity_table seeded_db).
Proof.
  split.
  - induction rs as [|r rs IH]; [done|]. intros Hno.
    apply not_elem_of_cons in Hno as [Hr Hno].
    rewrite serve_cons, handle_unseeded by done. by apply IH.
  - induction rs as [|r rs IH]; intros Hin.
    + by apply not_elem_of_nil in Hin.
    + destruct (decide (r = Startup)) as [->|Hr].
      * rewrite serve_cons. unfold seeded_db.
        apply serve_seeded_catalog. by vm_compute.
      * apply elem_of_cons in Hin as [Heq|Hin]; [congruence|].
        rewrite serve_cons, handle_unseeded by done. by apply IH.
Qed.

Lemma catalog_fixed_by_startup_witness :
  let rs := [Signup "Chess Club" "early@mergington.edu"; Startup;
             Unregister "Chess Club" "michael@mergington.edu"; Startup] in
  Startup ∈ rs
  ∧ activity_table (serve rs empty_db) = activity_table seeded_db.
Proof.
  intros rs.
  assert (Startup ∈ rs) as Hin by (right; left).
  split; [exact Hin|]. exact (proj2 (catalog_fixed_by_startup rs) Hin).
Defined.

(* ------------------------------------------------------------------ *)
(** ** Requests one after the other *)
(* ------------------------------------------------------------------ *)

Lemma signup_success_inv n e db resp :
  (with_session (signup_for_activity n e) db).2 = inr resp →
  ∃ a, head (filter (λ a, name a = n) (activity_table db)) = Some a
       ∧ enrollments_of n e db = []
       ∧ (Z.of_nat (length (enrollments n db)) < max_participants a)%Z.
Proof.
  rewrite signup_run. destruct (head _) as [a|]; [|done].
  destruct (enrollments_of n e db); [|done].
  destruct (Z.geb_spec (Z.of_nat (length (enrollments n db))) (max_participants a));
    [done|]. intros _. by exists a.
Qed.

Lemma filter_keep_others (tbl : list Participant) (x : option Z) :
  x ∉ Participant_id <$> tbl →
  filter (λ r, Participant_id r ≠ x) tbl = tbl.
Proof.
  induction tbl as [|r tbl IH]; [done|]. rewrite fmap_cons.
  intros [Hne Hx]%not_elem_of_cons. rewrite filter_cons.
  destruct (decide (Participant_id r ≠ x)) as [_|Hn]; [by rewrite IH|].
  exfalso. apply Hn. congruence.
Qed.

Lemma enrollments_of_enrollments n e db :
  enrollments_of n e db = filter (λ p, email p = e) (enrollments n db).
Proof.
  unfold enrollments_of, enrollments. rewrite list_filter_filter.
  apply list_filter_iff. tauto.
Qed.

(** X5.  Round trip: on any store, after a signup that succeeded, the
    unregister of the same pair succeeds and leaves exactly the store the
    signup started from. *)
Theorem signup_then_unregister_restores (n e : string) (db : Database)
    (resp : gmap string Value) :
  (with_session (signup_for_activity n e) db).2 = inr resp →
  with_session (unregister_from_activity n e) (handle db (Signup n e))
    = (db, inr (ok_message "Unregistered " e " from " n)).
Proof.
  intros Hok. destruct (signup_success_inv n e db resp Hok) as (a & Hsel & Hnone & _).
  rewrite (signup_appends n e db resp Hok), unregister_run. simpl.
  rewrite Hsel. unfold enrollments_of in *. simpl.
  rewrite filter_app, Hnone, filter_cons, filter_nil. simpl.
  destruct (decide (n = n ∧ e = e)) as [_|Hn]; [|by destruct Hn]. simpl.
  rewrite filter_app, filter_cons, filter_nil. simpl.
  rewrite filter_keep_others by apply next_rowid_fresh.
  destruct (decide (_ ≠ _)) as [Hn|_]; [done|].
  rewrite app_nil_r. by destruct db.
Qed.

Lemma signup_then_unregister_restores_witness :
  with_session (unregister_from_activity "Gym Class" "new@mergington.edu")
    (handle seeded_db (Signup "Gym Class" "new@mergington.edu"))
  = (seeded_db,
     inr (ok_message "Unregistered " "new@mergington.edu" " from " "Gym Class")).
Proof.
  refine (signup_then_unregister_restores "Gym Class" "new@mergington.edu" seeded_db
    {[ "message"%string := VStr "Signed up new@mergington.edu for Gym Class" ]} _).
  vm_compute. reflexivity.
Defined.

(** X6.  On any store, after a signup that succeeded, a second signup of the
    same pair is refused with 400 "Student is already signed up" and changes
    nothing. *)
Theorem signup_twice_refused (n e : string) (db : Database)
    (resp : gmap string Value) :
  (with_session (signup_for_activity n e) db).2 = inr resp →
  with_session (signup_for_activity n e) (handle db (Signup n e))
    = (handle db (Signup n e),
       inl (mkHTTPException 400 "Student is already signed up")).
Proof.
  intros Hok. destruct (signup_success_inv n e db resp Hok) as (a & Hsel & _).
  rewrite (signup_appends n e db resp Hok).
  apply select_activity_elem in Hsel as [Ha Hn].
  apply signup_already.
  - by exists a.
  - exists (new_enrollment n e db). split; [|done].
    simpl. apply elem_of_app. right. left.
Qed.

Lemma signup_twice_refused_witness :
  let db' := handle seeded_db (Signup "Gym Class" "new@mergington.edu") in
  with_session (signup_for_activity "Gym Class" "new@mergington.edu") db'
  = (db', inl (mkHTTPException 400 "Student is already signed up")).
Proof.
  refine (signup_twice_refused "Gym Class" "new@mergington.edu" seeded_db
    {[ "message"%string := VStr "Signed up new@mergington.edu for Gym Class" ]} _).
  vm_compute. reflexivity.
Defined.

Lemma unregister_leaves_none n e db resp :
  NoDup (Participant_id <$> participant_table db) →
  length (enrollments_of n e db) ≤ 1 →
  (with_session (unregister_from_activity n e) db).2 = inr resp →
  enrollments_of n e (handle db (Unregister n e)) = [].
Proof.
  intros Hpk Hone Hok.
  destruct (unregister_removes n e db resp Hpk Hok)
    as (l1 & p & l2 & Htbl & Hn & He & ->).
  unfold enrollments_of in *. simpl. rewrite Htbl in Hone.
  rewrite filter_app, filter_cons in Hone.
  destruct (decide (activity_name p = n ∧ email p = e)) as [_|Hno]; [|tauto].
  rewrite length_app in Hone. simpl in Hone. rewrite filter_app.
  destruct (filter _ l1); [|simpl in Hone; lia].
  destruct (filter _ l2); [done | simpl in Hone; lia].
Qed.

Lemma unregister_keeps_activity n e db :
  activity_table (handle db (Unregister n e)) = activity_table db.
Proof. by apply handle_activity_table. Qed.

Lemma unregister_success_exists n e db resp :
  (with_session (unregister_from_activity n e) db).2 = inr resp →
  activity_exists n db.
Proof.
  rewrite unregister_run. destruct (head _) as [a|] eqn:Hsel; [|done].
  intros _. apply select_activity_elem in Hsel as [Ha Hn]. by exists a.
Qed.

(** X7.  On a store whose participant ids are distinct and that holds at most
    one enrollment for the pair, after an unregister that succeeded a second
    unregister of the same pair is refused with 400 "Student is not signed up
    for this activity" and changes nothing. *)
Theorem unregister_twice_refused (n e : string) (db : Database)
    (resp : gmap string Value) :
  NoDup (Participant_id <$> participant_table db) →
  length (enrollments_of n e db) ≤ 1 →
  (with_session (unregister_from_activity n e) db).2 = inr resp →
  with_session (unregister_from_activity n e) (handle db (Unregister n e))
    = (handle db (Unregister n e),
       inl (mkHTTPException 400 "Student is not signed up for this activity")).
Proof.
  intros Hpk Hone Hok. apply unregister_not_signed_up.
  - destruct (unregister_success_exists n e db resp Hok) as (a & Ha & Hn).
    exists a. by rewrite unregister_keeps_activity.
  - apply enrollments_of_nil. by apply (unregister_leaves_none n e db resp).
Qed.

Lemma unregister_twice_refused_witness :
  let db' := handle seeded_db (Unregister "Chess Club" "michael@mergington.edu") in
  with_session (unregister_from_activity "Chess Club" "michael@mergington.edu") db'
  = (db', inl (mkHTTPException 400 "Student is not signed up for this activity")).
Proof.
  refine (unregister_twice_refused "Chess Club" "michael@mergington.edu" seeded_db
    {[ "message"%string :=
         VStr "Unregistered michael@mergington.edu from Chess Club" ]} _ _ _).
  - apply (bool_decide_unpack _); vm_compute; exact I.
  - vm_compute. lia.
  - vm_compute. reflexivity.
Defined.

Lemma unregister_then_signup db n e resp :
  consistent db →
  (with_session (unregister_from_activity n e) db).2 = inr resp →
  ∃ l1 l2 : list string,
    roster n db = l1 ++ e :: l2
    ∧ with_session (signup_for_activity n e) (handle db (Unregister n e))
      = (handle (handle db (Unregister n e)) (Signup n e),
         inr (ok_message "Signed up " e " for " n))
    ∧ roster n (handle (handle db (Unregister n e)) (Signup n e)) = l1 ++ l2 ++ [e].
Proof.
  intros [[Hnames _ Hpk] Hcap Huniq _] Hok.
  pose proof (unregister_leaves_none n e db resp Hpk (Huniq n e) Hok) as Hnone.
  destruct (unregister_success_exists n e db resp Hok) as (a & Ha & Hn).
  destruct (unregister_removes n e db resp Hpk Hok)
    as (l1 & p & l2 & Htbl & Hpn & Hpe & Hdb).
  set (db1 := handle db (Unregister n e)) in *.
  assert (roster n db
          = (email <$> filter (λ q, activity_name q = n) l1)
            ++ e :: (email <$> filter (λ q, activity_name q = n) l2)) as Hr0.
  { unfold roster, enrollments. rewrite Htbl, filter_app, filter_cons.
    destruct (decide (activity_name p = n)); [|done].
    by rewrite fmap_app, fmap_cons, Hpe. }
  assert (roster n db1
          = (email <$> filter (λ q, activity_name q = n) l1)
            ++ (email <$> filter (λ q, activity_name q = n) l2)) as Hr1.
  { rewrite Hdb. unfold roster, enrollments. simpl.
    by rewrite filter_app, fmap_app. }
  assert (with_session (signup_for_activity n e) db1
          = (mkDatabase (activity_table db1)
               (participant_table db1 ++ [new_enrollment n e db1]),
             inr (ok_message "Signed up " e " for " n))) as Hrun.
  { apply (signup_ok n e a).
    - subst db1. by rewrite unregister_keeps_activity.
    - subst db1. by rewrite unregister_keeps_activity.
    - done.
    - by apply enrollments_of_nil.
    - specialize (Hcap a Ha). rewrite Hn in Hcap.
      assert (length (roster n db) = S (length (roster n db1))) as Hlen.
      { rewrite Hr0, Hr1, !length_app. simpl. lia. }
      unfold roster in Hlen. rewrite !length_fmap in Hlen. lia. }
  exists (email <$> filter (λ q, activity_name q = n) l1),
         (email <$> filter (λ q, activity_name q = n) l2).
  split_and!; [done | |].
  - rewrite Hrun. f_equal. simpl. by rewrite Hrun.
  - rewrite (roster_after_signup n e db1 (ok_message "Signed up " e " for " n))
      by (by rewrite Hrun).
    by rewrite Hr1, <- app_assoc.
Qed.

(** X8.  In every reachable state, a slot freed by an unregister can be taken
    again: after an unregister that succeeded, the signup of the same pair
    succeeds, and the email, wherever it stood in the activity's roster, now
    stands last, the others keeping their order. *)
Theorem unregister_then_signup_moves_last (rs : list Request) (n e : string)
    (resp : gmap string Value) :
  let db := serve rs empty_db in
  (with_session (unregister_from_activity n e) db).2 = inr resp →
  ∃ l1 l2 : list string,
    roster n db = l1 ++ e :: l2
    ∧ with_session (signup_for_activity n e) (handle db (Unregister n e))
      = (handle (handle db (Unregister n e)) (Signup n e),
         inr (ok_message "Signed up " e " for " n))
    ∧ roster n (handle (handle db (Unregister n e)) (Signup n e)) = l1 ++ l2 ++ [e].
Proof.
  intros db. apply unregister_then_signup.
  apply serve_consistent, consistent_empty.
Qed.

Lemma unregister_then_signup_moves_last_witness :
  ∃ l1 l2 : list string,
    roster "Chess Club" (serve [Startup] empty_db)
      = l1 ++ "michael@mergington.edu"%string :: l2
    ∧ roster "Chess Club"
        (handle (handle (serve [Startup] empty_db)
                   (Unregister "Chess Club" "michael@mergington.edu"))
           (Signup "Chess Club" "michael@mergington.edu"))
      = l1 ++ l2 ++ ["michael@mergington.edu"%string].
Proof.
  destruct (unregister_then_signup_moves_last [Startup] "Chess Club"
    "michael@mergington.edu"
    {[ "message"%string :=
         VStr "Unregistered michael@mergington.edu from Chess Club" ]})
    as (l1 & l2 & H1 & _ & H2).
  - vm_compute. reflexivity.
  - exists l1, l2. split; [exact H1 | exact H2].
Defined.

(* ------------------------------------------------------------------ *)
(** ** Requests on different activities *)
(* ------------------------------------------------------------------ *)

Lemma handle_other_enrollments db r n' :
  NoDup (Participant_id <$> participant_table db) →
  match r with
  | Startup => False
  | Signup n _ | Unregister n _ => n ≠ n'
  end →
  enrollments n' (handle db r) = enrollments n' db.
Proof.
  intros Hpk Hr. destruct r as [|n e|n e]; [done| |].
  - destruct (with_session (signup_for_activity n e) db).2 as [err|resp] eqn:Hout.
    + simpl. revert Hout. rewrite signup_run. destruct (head _); [|done].
      destruct (enrollments_of n e db); [|done]. by destruct (_ >=? _)%Z.
    + rewrite (signup_appends n e db resp Hout). unfold enrollments. simpl.
      rewrite filter_app, filter_cons, filter_nil. simpl.
      destruct (decide (n = n')); [done|]. by rewrite app_nil_r.
  - destruct (with_session (unregister_from_activity n e) db).2 as [err|resp] eqn:Hout.
    + simpl. revert Hout. rewrite unregister_run. destruct (head _); [|done].
      by destruct (enrollments_of n e db).
    + destruct (unregister_removes n e db resp Hpk Hout)
        as (l1 & p & l2 & Htbl & Hn & He & ->).
      unfold enrollments. simpl. rewrite Htbl.
      symmetry. apply enrollments_without. congruence.
Qed.

Lemma signup_response_observes n e db1 db2 :
  activity_table db1 = activity_table db2 →
  enrollments n db1 = enrollments n db2 →
  (with_session (signup_for_activity n e) db1).2
  = (with_session (signup_for_activity n e) db2).2.
Proof.
  intros Hacts Hrows. rewrite !signup_run, !enrollments_of_enrollments, Hacts, Hrows.
  destruct (head _); [|done]. destruct (filter _ _); [|done].
  by destruct (_ >=? _)%Z.
Qed.

Lemma unregister_response_observes n e db1 db2 :
  activity_table db1 = activity_table db2 →
  enrollments n db1 = enrollments n db2 →
  (with_session (unregister_from_activity n e) db1).2
  = (with_session (unregister_from_activity n e) db2).2.
Proof.
  intros Hacts Hrows.
  rewrite !unregister_run, !enrollments_of_enrollments, Hacts, Hrows.
  destruct (head _); [|done]. by destruct (filter _ _).
Qed.

(** X9.  Requests on different activities do not disturb one another: on a
    store with distinct participant ids, a signup or unregister for activity
    [n], whatever its outcome, leaves the enrollment records of any other
    activity [n'] as they were, and the responses a signup or an unregister
    for [n'] gets afterwards are the ones it would have got before. *)
Theorem other_activity_undisturbed (db : Database) (r : Request)
    (n' e' : string) :
  NoDup (Participant_id <$> participant_table db) →
  match r with
  | Startup => False
  | Signup n _ | Unregister n _ => n ≠ n'
  end →
  enrollments n' (handle db r) = enrollments n' db
  ∧ (with_session (signup_for_activity n' e') (handle db r)).2
    = (with_session (signup_for_activity n' e') db).2
  ∧ (with_session (unregister_from_activity n' e') (handle db r)).2
    = (with_session (unregister_from_activity n' e') db).2.
Proof.
  intros Hpk Hr.
  pose proof (handle_other_enrollments db r n' Hpk Hr) as Hrows.
  assert (activity_table (handle db r) = activity_table db) as Hacts
    by (apply handle_activity_table; by destruct r).
  split_and!; [done | |].
  - by apply signup_response_observes.
  - by apply unregister_response_observes.
Qed.

Lemma other_activity_undisturbed_witness :
  let r := Unregister "Chess Club" "michael@mergington.edu" in
  enrollments "Math Club" (handle seeded_db r) = enrollments "Math Club" seeded_db
  ∧ (with_session (signup_for_activity "Math Club" "new@e") (handle seeded_db r)).2
    = (with_session (signup_for_activity "Math Club" "new@e") seeded_db).2
  ∧ (with_session (unregister_from_activity "Math Club" "new@e") (handle seeded_db r)).2
    = (with_session (unregister_from_activity "Math Club" "new@e") seeded_db).2.
Proof.
  intros r.
  refine (other_activity_undisturbed seeded_db r "Math Club" "new@e" _ _).
  - apply (bool_decide_unpack _); vm_compute; exact I.
  - apply (bool_decide_unpack _); vm_compute; exact I.
Defined.

(* ------------------------------------------------------------------ *)
(** ** Capacity at the edge *)
(* ------------------------------------------------------------------ *)

(** X10.  An activity whose [max_participants] is zero or negative accepts
    nobody: on a store with unique activity names every signup for it is
    refused with a 400, either "Student is already signed up" or "Activity is
    full", and changes nothing. *)
Theorem no_capacity_no_signup (a : Activity) (e : string) (db : Database) :
  NoDup (name <$> activity_table db) →
  a ∈ activity_table db →
  (max_participants a ≤ 0)%Z →
  with_session (signup_for_activity (name a) e) db
    = (db, inl (mkHTTPException 400 "Student is already signed up"))
  ∨ with_session (signup_for_activity (name a) e) db
    = (db, inl (mkHTTPException 400 "Activity is full")).
Proof.
  intros Hnd Ha Hmax. destruct (decide (enrolled (name a) e db)) as [Hen|Hen].
  - left. apply signup_already; [by exists a | done].
  - right. apply (signup_full _ e a); try done. lia.
Qed.

Lemma no_capacity_no_signup_witness :
  let a := mkActivity (Some 1%Z) "Closed Club" "" "" 0 in
  let db := mkDatabase [a] [] in
  with_session (signup_for_activity "Closed Club" "a@b.edu") db
    = (db, inl (mkHTTPException 400 "Student is already signed up"))
  ∨ with_session (signup_for_activity "Closed Club" "a@b.edu") db
    = (db, inl (mkHTTPException 400 "Activity is full")).
Proof.
  intros a db. refine (no_capacity_no_signup a "a@b.edu" db _ _ _).
  - apply (bool_decide_unpack _); vm_compute; exact I.
  - apply (bool_decide_unpack _); vm_compute; exact I.
  - vm_compute. discriminate.
Defined.


(* ------------------------------------------------------------------ *)
(** ** A request in flight is invisible until it commits *)
(* ------------------------------------------------------------------ *)

Lemma exec_stmt_db {X} (st : Stmt X) db s :
  is_commit st = false → (exec_stmt st db s).1.2 = db.
Proof. by destruct st. Qed.

Lemma commits_last_steps {A} (p : Prog A) k db s :
  commits_last p →
  let '(db', t') := steps k db (mkThread s p) in
  db' = db
  ∨ (db' = (run p db s).1.1 ∧ response t' = Some (run p db s).2).
Proof.
  revert p db s. induction k as [|k IH]; intros p db s Hp; [by left|].
  destruct Hp as [a|e|c Hc|X st c Hst Hc].
  - rewrite (steps_over _ _ (mkThread s (Return a))) by (by eexists). by left.
  - rewrite (steps_over _ _ (mkThread s (Raise e))) by (by eexists). by left.
  - cbn [steps step thread_prog thread_session exec_stmt run].
    destruct (c ()) as [a|e|] eqn:Hk; [| |done].
    + rewrite (steps_over _ _ (mkThread new_session (Return a))) by (by eexists).
      by right.
    + rewrite (steps_over _ _ (mkThread new_session (Raise e))) by (by eexists).
      by right.
  - cbn [steps step thread_prog thread_session run].
    pose proof (exec_stmt_db st db s Hst) as Hdb.
    destruct (exec_stmt st db s) as [[x db1] s1]. simpl in Hdb. subst db1.
    apply IH, Hc.
Qed.

Ltac commits_last_tac :=
  repeat (cbn [prog_bind for_ over is_commit];
          first [ apply commits_last_return
                | apply commits_last_raise
                | apply commits_last_commit; exact I
                | apply commits_last_exec; [reflexivity | intros ?]
                | match goal with
                  | |- commits_last (match ?x with _ => _ end) => destruct x
                  end ]).

Lemma signup_commits_last n e : commits_last (signup_for_activity n e).
Proof.
  unfold signup_for_activity, first, all, mbind, Prog_bind, fmap, Prog_fmap, exec,
    mret, Prog_ret.
  commits_last_tac.
Qed.

Lemma unregister_commits_last n e : commits_last (unregister_from_activity n e).
Proof.
  unfold unregister_from_activity, first, mbind, Prog_bind, fmap, Prog_fmap, exec,
    mret, Prog_ret.
  commits_last_tac.
Qed.

Lemma seed_commits_last : commits_last seed_database.
Proof.
  unfold seed_database, SEED_ACTIVITIES, first, mbind, Prog_bind, fmap, Prog_fmap,
    exec, mret, Prog_ret.
  cbn [seed_participants seed_name seed_description seed_schedule
       seed_max_participants].
  commits_last_tac.
Qed.

Lemma get_activities_commits_last : commits_last get_activities.
Proof.
  unfold get_activities, all, mbind, Prog_bind, fmap, Prog_fmap, exec, mret, Prog_ret.
  cbn [prog_bind]. apply commits_last_exec; [done|]. intros l.
  generalize (∅ : gmap string (gmap string Value)).
  induction l as [|a l IH]; intros acc; cbn [for_acc].
  - apply commits_last_return.
  - unfold mbind, Prog_bind, mret, Prog_ret. cbn [prog_bind].
    apply commits_last_exec; [done|]. intros rows. apply IH.
Qed.

Lemma handler_commits_at_once {A} (p : Prog A) k db :
  commits_last p →
  let '(db', t') := steps k db (spawn p) in
  db' = db ∨ (db' = (with_session p db).1 ∧ is_Some (response t')).
Proof.
  intros Hp. pose proof (commits_last_steps p k db new_session Hp) as Hsteps.
  unfold spawn, with_session.
  destruct (steps k db (mkThread new_session p)) as [db' t'].
  destruct (run p db new_session) as [[d s] r].
  destruct Hsteps as [->|[-> Hresp]]; [by left|].
  right. split; [done | by eexists].
Qed.

(** X11.  No request shows a half-done update: however many statements of a
    startup, a signup or an unregister have run, the committed database is
    still the one the request started on, or it is already the one the whole
    request leaves and the request has its response.  In particular the
    seeding never commits an activity without the rest of the catalog and the
    rosters. *)
Theorem request_commits_at_once (db : Database) (k : nat) :
  (let '(db', t') := steps k db (spawn on_startup) in
   db' = db ∨ (db' = handle db Startup ∧ is_Some (response t')))
  ∧ (∀ n e,
     let '(db', t') := steps k db (spawn (signup_for_activity n e)) in
     db' = db ∨ (db' = handle db (Signup n e) ∧ is_Some (response t')))
  ∧ (∀ n e,
     let '(db', t') := steps k db (spawn (unregister_from_activity n e)) in
     db' = db ∨ (db' = handle db (Unregister n e) ∧ is_Some (response t'))).
Proof.
  split_and!.
  - apply (handler_commits_at_once on_startup), seed_commits_last.
  - intros n e. apply (handler_commits_at_once (signup_for_activity n e)),
      signup_commits_last.
  - intros n e. apply (handler_commits_at_once (unregister_from_activity n e)),
      unregister_commits_last.
Qed.

(** X12.  [GET /activities] never writes and never raises: on any store,
    however many of its statements have run, the committed database is the one
    it started on; run to its end it returns a dict whose keys are exactly the
    names in the activity table, the empty dict on a store without
    activities. *)
Theorem listing_never_writes (db : Database) (k : nat) :
  (steps k db (spawn get_activities)).1 = db
  ∧ ∃ result : gmap string (gmap string Value),
      with_session get_activities db = (db, inr result)
      ∧ dom result = list_to_set (name <$> activity_table db)
      ∧ (activity_table db = [] → result = ∅).
Proof.
  split.
  - pose proof (handler_commits_at_once get_activities k db
                  get_activities_commits_last) as Hsteps.
    destruct (steps k db (spawn get_activities)) as [db' t']. simpl.
    destruct Hsteps as [->|[-> _]]; [done|]. by rewrite get_activities_run.
  - exists (listing_of db (activity_table db) ∅). split_and!.
    + apply get_activities_run.
    + by rewrite listing_of_dom, dom_empty_L, (left_id_L ∅ (∪)).
    + by intros ->.
Qed.

Lemma listing_never_writes_witness :
  activity_table empty_db = []
  ∧ with_session get_activities empty_db = (empty_db, inr ∅).
Proof.
  split; [reflexivity|].
  destruct (listing_never_writes empty_db 0) as (_ & result & Hrun & _ & Hempty).
  rewrite Hrun. f_equal. f_equal. exact (Hempty eq_refl).
Defined.

(* ------------------------------------------------------------------ *)
(** ** What the seeding writes *)
(* ------------------------------------------------------------------ *)

Lemma run_bind {A B} (p : Prog A) (f : A → Prog B) db s :
  run (p ≫= f) db s =
  match run p db s with
  | (db', s', inr a) => run (f a) db' s'
  | (db', s', inl e) => (db', s', inl e)
  end.
Proof.
  unfold mbind, Prog_bind. revert db s.
  induction p as [a|e|X st k IH]; intros db s; cbn [prog_bind run]; [done..|].
  destruct (exec_stmt st db s) as [[x db'] s']. apply IH.
Qed.

Lemma run_add_all {E} (g : E → Model) (es : list E) db s :
  run (for_ es (λ e, exec (SessionAdd (g e)))) db s
  = (db, mkSession (pending s ++ (PendingInsert ∘ g <$> es)) (txn s), inr ()).
Proof.
  revert s. induction es as [|e es IH]; intros s.
  - cbn [for_ fmap list_fmap]. rewrite app_nil_r. destruct s. reflexivity.
  - cbn [for_]. rewrite run_bind. cbn [exec run exec_stmt]. rewrite IH.
    cbn [pending txn]. by rewrite <- app_assoc.
Qed.

Lemma effective_flush db s :
  effective db (flush db s) = effective db s.
Proof.
  unfold effective, flush. destruct (pending s) as [|w ws] eqn:Hp.
  - by rewrite Hp.
  - done.
Qed.

Lemma flush_pending db s ws w :
  pending s = ws ++ [w] → flush db s = mkSession [] (Some (effective db s)).
Proof.
  intros Hp. unfold flush, effective. rewrite Hp.
  by destruct ws.
Qed.

Lemma seed_loop seeds db s :
  ∃ s',
    run (for_ seeds (λ data,
      let activity :=
        mkActivity None (seed_name data) (seed_description data)
          (seed_schedule data) (seed_max_participants data) in
      exec (SessionAdd (ActivityRow activity));;
      exec SessionFlush;;
      for_ (seed_participants data) (λ email,
        exec (SessionAdd (ParticipantRow (mkParticipant None email (name activity)))))))
      db s
    = (db, s', inr ())
    ∧ effective db s'
      = foldl apply_pending (effective db s) (PendingInsert <$> (seeds ≫= seed_rows)).
Proof.
  revert s. induction seeds as [|d seeds IH]; intros s.
  - exists s. done.
  - cbn [for_]. rewrite run_bind. cbn zeta. cbn [name].
    do 2 (rewrite run_bind; cbn [exec run exec_stmt]).
    rewrite (run_add_all (λ e, ParticipantRow (mkParticipant None e (seed_name d)))).
    match goal with |- context [run _ db ?s1] => destruct (IH s1) as (s' & Hrun & Heff) end.
    exists s'. split; [done|]. rewrite Heff. clear Hrun Heff IH.
    rewrite (flush_pending db (mkSession (pending s ++ [_]) (txn s)) (pending s) _ eq_refl).
    rewrite bind_cons, fmap_app, foldl_app. f_equal.
    unfold effective at 1. cbn [pending txn view default app].
    unfold effective at 1. cbn [pending txn view default].
    rewrite foldl_app. cbn [seed_rows fmap list_fmap foldl].
    by rewrite <- list_fmap_compose.
Qed.

Lemma seeding_inserts db :
  activity_table db = [] →
  with_session on_startup db
  = (foldl apply_pending db (PendingInsert <$> (SEED_ACTIVITIES ≫= seed_rows)), inr ()).
Proof.
  intros Hacts. unfold with_session, on_startup, seed_database.
  rewrite run_bind. unfold fmap at 1, Prog_fmap. cbn [prog_bind exec run exec_stmt].
  change (flush db new_session) with new_session.
  change (view db new_session) with db.
  rewrite Hacts. cbn [filter list_filter first head].
  rewrite run_bind.
  destruct (seed_loop SEED_ACTIVITIES db new_session) as (s' & Hrun & Heff).
  cbv zeta in Hrun. rewrite Hrun.
  cbn [exec run exec_stmt].
  change (view db (flush db s')) with (view db (flush db s')).
  assert (view db (flush db s') = effective db s') as ->.
  { unfold flush, effective. destruct (pending s') eqn:Hp; [by rewrite ?Hp|done]. }
  by rewrite Heff.
Qed.

Lemma insert_all_columns rows db :
  activity_columns <$> activity_table (foldl apply_pending db (PendingInsert <$> rows))
  = (activity_columns <$> activity_table db) ++ (rows ≫= row_columns)
  ∧ enrollment_pairs (participant_table (foldl apply_pending db (PendingInsert <$> rows)))
  = enrollment_pairs (participant_table db) ++ (rows ≫= row_pairs).
Proof.
  revert db. induction rows as [|o rows IH]; intros db.
  - cbn [fmap list_fmap foldl mbind list_bind]. by rewrite !app_nil_r.
  - rewrite fmap_cons. cbn [foldl]. destruct (IH (apply_pending db (PendingInsert o))) as [-> ->].
    rewrite !bind_cons. unfold enrollment_pairs.
    destruct o as [a|p]; cbn [apply_pending insert_row activity_table participant_table
                              row_columns row_pairs];
      rewrite ?fmap_app, <- ?app_assoc; done.
Qed.

(** X13.  On any store without activities the startup writes exactly the
    seed data: the activity table then holds the seed entries' name,
    description, schedule and max_participants, in seed order, and the
    participant table holds what it held before followed by one row for each
    seed participant, under its activity's name, in seed order. *)
Theorem seeding_writes_seed_data (db : Database) :
  activity_table db = [] →
  activity_columns <$> activity_table (handle db Startup)
    = seed_columns <$> SEED_ACTIVITIES
  ∧ enrollment_pairs (participant_table (handle db Startup))
    = enrollment_pairs (participant_table db) ++ seed_pairs SEED_ACTIVITIES.
Proof.
  intros Hacts. unfold handle. rewrite (seeding_inserts db Hacts). cbn [fst].
  destruct (insert_all_columns (SEED_ACTIVITIES ≫= seed_rows) db) as [-> ->].
  rewrite Hacts. split; [reflexivity|]. f_equal.
Qed.

Lemma seeding_writes_seed_data_witness :
  activity_table empty_db = []
  ∧ activity_columns <$> activity_table (handle empty_db Startup)
    = seed_columns <$> SEED_ACTIVITIES
  ∧ enrollment_pairs (participant_table (handle empty_db Startup))
    = enrollment_pairs (participant_table empty_db) ++ seed_pairs SEED_ACTIVITIES.
Proof.
  split; [reflexivity|]. exact (seeding_writes_seed_data empty_db eq_refl).
Defined.

(* ------------------------------------------------------------------ *)
(** ** Concurrent signups for different activities *)
(* ------------------------------------------------------------------ *)

Lemma count_by_roster n (P : Participant → Prop) `{!∀ p, Decision (P p)}
    (Q : string → Prop) `{!∀ e, Decision (Q e)} (tbl : list Participant) :
  (∀ p, P p ↔ activity_name p = n ∧ Q (email p)) →
  length (filter P tbl)
  = length (filter Q (email <$> filter (λ p, activity_name p = n) tbl)).
Proof.
  intros HP. induction tbl as [|p tbl IH]; [done|].
  rewrite !filter_cons. destruct (decide (activity_name p = n)) as [Hn|Hn].
  - rewrite fmap_cons, filter_cons.
    destruct (decide (P p)) as [Hp|Hp], (decide (Q (email p))) as [Hq|Hq];
      simpl; rewrite ?IH; try done.
    + apply HP in Hp. tauto.
    + exfalso. apply Hp, HP. done.
  - destruct (decide (P p)) as [Hp|Hp]; [|done]. apply HP in Hp. tauto.
Qed.

Lemma inserts_for_effect n ws db :
  inserts_for n ws →
  activity_table (foldl apply_pending db ws) = activity_table db
  ∧ ∀ m, roster m (foldl apply_pending db ws)
         = roster m db ++ (if decide (m = n) then pending_emails ws else []).
Proof.
  intros Hws. revert db. induction Hws as [|w ws (p & -> & Hn) _ IH]; intros db.
  - split; [done|]. intros m. cbn. by destruct (decide (m = n)); rewrite app_nil_r.
  - cbn [foldl]. destruct (IH (apply_pending db (PendingInsert (ParticipantRow p))))
      as [Hacts Hr].
    split; [by rewrite Hacts|]. intros m. rewrite Hr.
    unfold roster, enrollments, pending_emails. cbn [apply_pending insert_row participant_table].
    rewrite filter_app, fmap_app, filter_cons, filter_nil, bind_cons.
    cbn [email activity_name]. rewrite Hn.
    destruct (decide (n = m)) as [->|Hne].
    + destruct (decide (m = m)); [|done]. by rewrite <- app_assoc.
    + destruct (decide (m = n)); [congruence|]. cbn. by rewrite !app_nil_r.
Qed.

Lemma view_flush db s : view db (flush db s) = effective db s.
Proof.
  unfold flush, effective. destruct (pending s) eqn:Hp; [by rewrite ?Hp|done].
Qed.

Lemma step_writing n {A} (t : Thread A) db db' :
  txn (thread_session t) = None →
  inserts_for n (pending (thread_session t)) →
  adds_then_commits n (thread_prog t) →
  same_view n db db' →
  (step db t).2 = (step db' t).2
  ∧ same_view n (step db t).1 (step db' t).1
  ∧ (∀ m, m ≠ n → same_view m (step db t).1 db)
  ∧ thread_local n (step db t).2.
Proof.
  destruct t as [[ws tx] p]. cbn [thread_session thread_prog txn pending].
  intros -> Hws Hp Hview. destruct Hp as [p k Hn Hk|k Hk].
  - cbn. split_and!; [done..|]. right. cbn. split_and!; [done | | done].
    apply Forall_app. split; [done|]. apply Forall_singleton. eauto.
  - unfold step. cbn [thread_prog thread_session exec_stmt fst snd].
    rewrite !view_flush. unfold effective. cbn [view txn pending default].
    destruct (inserts_for_effect n ws db Hws) as [Ha Hr].
    destruct (inserts_for_effect n ws db' Hws) as [Ha' Hr'].
    destruct Hview as [Hva Hvr]. split_and!.
    + done.
    + split; [congruence|]. by rewrite Hr, Hr', Hvr.
    + intros m Hm. split; [done|]. rewrite Hr.
      destruct (decide (m = n)); [done|]. by rewrite app_nil_r.
    + left. split; [done|]. cbn. destruct (k ()); [constructor..|done].
Qed.

Lemma step_local n {A} (t : Thread A) db db' :
  thread_local n t → same_view n db db' →
  (step db t).2 = (step db' t).2
  ∧ same_view n (step db t).1 (step db' t).1
  ∧ (∀ m, m ≠ n → same_view m (step db t).1 db)
  ∧ thread_local n (step db t).2.
Proof.
  intros [[Hs Hp]|(Htx & Hws & Hp)] Hview; [|by apply step_writing].
  destruct t as [s p]. cbn [thread_session thread_prog] in *. subst s.
  destruct Hp as [a|e|P dec k Hk|P dec Q decQ k HP Hlen Hk|p Hp].
  - cbn. split_and!; [done..|]. left. split; [done|constructor].
  - cbn. split_and!; [done..|]. left. split; [done|constructor].
  - unfold step. cbn [thread_prog thread_session exec_stmt fst snd].
    change (flush db new_session) with new_session.
    change (flush db' new_session) with new_session.
    change (view db new_session) with db. change (view db' new_session) with db'.
    destruct Hview as [Hva Hvr]. rewrite Hva.
    split_and!; [done | done | done |]. left. split; [done|]. apply Hk.
  - unfold step. cbn [thread_prog thread_session exec_stmt fst snd].
    change (flush db new_session) with new_session.
    change (flush db' new_session) with new_session.
    change (view db new_session) with db. change (view db' new_session) with db'.
    destruct Hview as [Hva Hvr].
    rewrite (Hlen (filter P (participant_table db)) (filter P (participant_table db'))).
    + split_and!; [done | done | done |]. left. split; [done|]. apply Hk.
    + rewrite !(count_by_roster n P Q) by done.
      unfold roster, enrollments in Hvr. by rewrite Hvr.
  - apply step_writing; [done | constructor | done | done].
Qed.

Lemma same_view_trans n db1 db2 db3 :
  same_view n db1 db2 → same_view n db2 db3 → same_view n db1 db3.
Proof. intros [??] [??]. split; congruence. Qed.

Lemma steps_succ {A} k db (t : Thread A) :
  steps (S k) db t = step (steps k db t).1 (steps k db t).2.
Proof.
  replace (S k) with (k + 1) by lia. rewrite steps_add.
  destruct (steps k db t) as [d t']. cbn. by destruct (step d t').
Qed.

Lemma steps_local n {A} k db (t : Thread A) :
  thread_local n t → thread_local n (steps k db t).2.
Proof.
  intros Ht. induction k as [|k IH]; [done|]. rewrite steps_succ.
  apply (step_local n _ _ (steps k db t).1); [done | by split].
Qed.

Lemma steps_response {A} k (p : Prog A) db s r :
  response (steps k db (mkThread s p)).2 = Some r →
  (run p db s).1.1 = (steps k db (mkThread s p)).1 ∧ (run p db s).2 = r.
Proof.
  revert p db s. induction k as [|k IH]; intros p db s.
  - destruct p; cbn; [by intros [= <-] | by intros [= <-] | done].
  - destruct p as [a|e|X st c].
    + rewrite (steps_over _ _ (mkThread s (Return a))) by (by eexists).
      cbn. by intros [= <-].
    + rewrite (steps_over _ _ (mkThread s (Raise e))) by (by eexists).
      cbn. by intros [= <-].
    + cbn [steps step thread_prog thread_session run].
      destruct (exec_stmt st db s) as [[x d1] s1]. apply IH.
Qed.

Lemma interleave_local {A B} n1 n2 (t10 : Thread A) (t20 : Thread B) db0 sched :
  n1 ≠ n2 → thread_local n1 t10 → thread_local n2 t20 →
  ∀ dbc k1 k2,
    same_view n1 dbc (steps k1 db0 t10).1 →
    same_view n2 dbc (steps k2 db0 t20).1 →
    ∃ k1' k2',
      interleave sched dbc (steps k1 db0 t10).2 (steps k2 db0 t20).2
      = ((interleave sched dbc (steps k1 db0 t10).2 (steps k2 db0 t20).2).1.1,
         (steps k1' db0 t10).2, (steps k2' db0 t20).2)
      ∧ same_view n1
          (interleave sched dbc (steps k1 db0 t10).2 (steps k2 db0 t20).2).1.1
          (steps k1' db0 t10).1
      ∧ same_view n2
          (interleave sched dbc (steps k1 db0 t10).2 (steps k2 db0 t20).2).1.1
          (steps k2' db0 t20).1.
Proof.
  intros Hne Ht1 Ht2. induction sched as [|turn sched IH]; intros dbc k1 k2 Hv1 Hv2.
  - exists k1, k2. done.
  - destruct turn; cbn [interleave].
    + destruct (step_local n1 (steps k1 db0 t10).2 dbc (steps k1 db0 t10).1)
        as (Hthread & Hview & Hframe & _); [by apply steps_local | done |].
      rewrite <- steps_succ in Hthread, Hview.
      destruct (step dbc (steps k1 db0 t10).2) as [dbc' t1'] eqn:Hstep.
      cbn [fst snd] in *. subst t1'.
      apply IH; [done|].
      eapply same_view_trans; [|exact Hv2]. apply Hframe. congruence.
    + destruct (step_local n2 (steps k2 db0 t20).2 dbc (steps k2 db0 t20).1)
        as (Hthread & Hview & Hframe & _); [by apply steps_local | done |].
      rewrite <- steps_succ in Hthread, Hview.
      destruct (step dbc (steps k2 db0 t20).2) as [dbc' t2'] eqn:Hstep.
      cbn [fst snd] in *. subst t2'.
      apply IH; [|done].
      eapply same_view_trans; [|exact Hv1]. apply Hframe. congruence.
Qed.

Lemma signup_reads_activity n e : reads_activity n (signup_for_activity n e).
Proof.
  unfold signup_for_activity, first, all, mbind, Prog_bind, fmap, Prog_fmap, exec,
    mret, Prog_ret.
  cbn [prog_bind]. apply ra_select_activity. intros acts.
  destruct (head acts) as [a|]; [|apply ra_raise]. cbn [prog_bind].
  apply (ra_select_participant n _ _ (λ x, x = e) _); [tauto | |].
  { intros [|??] [|??]; done. }
  intros rows. destruct (head rows); [apply ra_raise|]. cbn [prog_bind].
  apply (ra_select_participant n _ _ (λ _, True) _); [tauto | |].
  { intros rows1 rows2 Hlen. by rewrite Hlen. }
  intros rows'. destruct (_ >=? _)%Z; [apply ra_raise|]. cbn [prog_bind].
  apply ra_write, atc_add; [done|]. by apply atc_commit.
Qed.

(** X14.  The race is confined to one activity: when two signups for
    different activities run concurrently, under every schedule of their
    statements, each one that has answered has given the response it would
    have given alone on the initial store, and its activity's roster is the
    one it would have left alone. *)
Theorem signups_elsewhere_do_not_race (db : Database) (n1 e1 n2 e2 : string)
    (sched : list Turn) :
  n1 ≠ n2 →
  let '(db', t1, t2) :=
    interleave sched db (spawn (signup_for_activity n1 e1))
      (spawn (signup_for_activity n2 e2)) in
  (∀ r, response t1 = Some r →
     r = (with_session (signup_for_activity n1 e1) db).2
     ∧ roster n1 db' = roster n1 (handle db (Signup n1 e1)))
  ∧ (∀ r, response t2 = Some r →
     r = (with_session (signup_for_activity n2 e2) db).2
     ∧ roster n2 db' = roster n2 (handle db (Signup n2 e2))).
Proof.
  intros Hne.
  assert (∀ n e, thread_local n (spawn (signup_for_activity n e))) as Hlocal
    by (intros n e; left; split; [done | apply signup_reads_activity]).
  destruct (interleave_local n1 n2 (spawn (signup_for_activity n1 e1))
              (spawn (signup_for_activity n2 e2)) db sched Hne
              (Hlocal n1 e1) (Hlocal n2 e2) db 0 0)
    as (k1 & k2 & Heq & [_ Hv1] & [_ Hv2]); [by split | by split |].
  cbn [steps snd] in Heq. rewrite Heq. clear Heq.
  set (db' := (interleave _ _ _ _).1.1) in *. clearbody db'.
  assert (∀ n e k r,
            response (steps k db (spawn (signup_for_activity n e))).2 = Some r →
            r = (with_session (signup_for_activity n e) db).2
            ∧ (steps k db (spawn (signup_for_activity n e))).1
              = handle db (Signup n e)) as Halone.
  { intros n e k r Hr. apply steps_response in Hr as [Hdb Hr].
    unfold handle, with_session.
    destruct (run (signup_for_activity n e) db new_session) as [[d s] r'].
    cbn in *. by subst. }
  split; intros r Hr.
  - destruct (Halone n1 e1 k1 r Hr) as [-> Hdb]. by rewrite Hv1, Hdb.
  - destruct (Halone n2 e2 k2 r Hr) as [-> Hdb]. by rewrite Hv2, Hdb.
Qed.

Lemma signups_elsewhere_do_not_race_witness :
  "Chess Club"%string ≠ "Math Club"%string
  ∧ let '(db', t1, t2) :=
      interleave racing seeded_db (spawn (signup_for_activity "Chess Club" "x@e"))
        (spawn (signup_for_activity "Math Club" "y@e")) in
    (∀ r, response t1 = Some r →
       r = (with_session (signup_for_activity "Chess Club" "x@e") seeded_db).2
       ∧ roster "Chess Club" db'
         = roster "Chess Club" (handle seeded_db (Signup "Chess Club" "x@e")))
    ∧ (∀ r, response t2 = Some r →
       r = (with_session (signup_for_activity "Math Club" "y@e") seeded_db).2
       ∧ roster "Math Club" db'
         = roster "Math Club" (handle seeded_db (Signup "Math Club" "y@e"))).
Proof.
  assert ("Chess Club"%string ≠ "Math Club"%string) as Hne by discriminate.
  split; [exact Hne|].
  exact (signups_elsewhere_do_not_race seeded_db "Chess Club" "x@e" "Math Club" "y@e"
           racing Hne).
Defined.

(* ------------------------------------------------------------------ *)
(** ** Concurrent signups for the same activity *)
(* ------------------------------------------------------------------ *)

Lemma tickets_le_1 {A} (p : Prog A) : tickets p ≤ 1.
Proof. destruct p as [| |X st k]; cbn; [lia..|]. destruct st; lia. Qed.

Lemma step_guarded n acts M {A} (t : Thread A) dbc :
  activity_table dbc = acts →
  guarded_thread n acts M t →
  activity_table (step dbc t).1 = acts
  ∧ guarded_thread n acts M (step dbc t).2
  ∧ (length (roster n (step dbc t).1) + tickets (thread_prog (step dbc t).2)
       ≤ length (roster n dbc) + tickets (thread_prog t)
     ∨ (roster n (step dbc t).1 = roster n dbc
        ∧ tickets (thread_prog t) = 0
        ∧ (Z.of_nat (length (roster n dbc)) < M)%Z)).
Proof.
  intros Hacts [[Hs Hp]|(q & k & Hs & Hq & Hp & Hk)];
    destruct t as [s p]; cbn [thread_session thread_prog] in *; subst s.
  - destruct Hp as [a|e|P dec k Htk Hk|P dec k Htk Hk|P dec k HP Hk Htk|q k k' Hq Hk Hk'].
    + cbn. split_and!; [done | left; split; [done | constructor] | left; lia].
    + cbn. split_and!; [done | left; split; [done | constructor] | left; lia].
    + unfold step. cbn [thread_prog thread_session exec_stmt fst snd].
      change (flush dbc new_session) with new_session.
      change (view dbc new_session) with dbc. rewrite Hacts.
      split_and!; [done | by left | left; cbn; lia].
    + unfold step. cbn [thread_prog thread_session exec_stmt fst snd].
      change (flush dbc new_session) with new_session.
      change (view dbc new_session) with dbc.
      specialize (Htk (filter P (participant_table dbc))).
      split_and!; [done | left; split; [done | apply Hk] | left; cbn; lia].
    + unfold step. cbn [thread_prog thread_session exec_stmt fst snd].
      change (flush dbc new_session) with new_session.
      change (view dbc new_session) with dbc.
      split_and!; [done | left; split; [done | apply Hk] |].
      destruct (Htk (filter P (participant_table dbc))) as [Htk'|Hlt];
        [left; cbn; lia|]. right.
      split_and!; [done | done |].
      unfold roster, enrollments. rewrite length_fmap.
      by rewrite <- (list_filter_iff P _ _ HP).
    + unfold step. cbn [thread_prog thread_session exec_stmt fst snd pending txn app].
      split_and!; [done | | left; rewrite Hk; cbn; lia].
      right. exists q, k'. by rewrite Hk.
  - subst p. unfold step. cbn [thread_prog thread_session exec_stmt fst snd].
    rewrite view_flush. unfold effective.
    cbn [view txn pending default foldl apply_pending insert_row].
    split_and!; [done | | left].
    + left. split; [done|]. cbn. destruct (k ()); [constructor..|done].
    + unfold roster, enrollments. cbn [participant_table thread_prog].
      rewrite filter_app, fmap_app, length_app, filter_cons, filter_nil.
      cbn [activity_name]. rewrite Hq. destruct (decide (n = n)); [|done].
      destruct (k ()); cbn; try lia. done.
Qed.

Lemma interleave_guarded n acts M {A B} sched :
  ∀ dbc (t1 : Thread A) (t2 : Thread B),
    activity_table dbc = acts →
    guarded_thread n acts M t1 → guarded_thread n acts M t2 →
    (Z.of_nat (length (roster n dbc) + tickets (thread_prog t1)
               + tickets (thread_prog t2)) ≤ M + 1)%Z →
    (Z.of_nat (length (roster n (interleave sched dbc t1 t2).1.1)) ≤ M + 1)%Z.
Proof.
  induction sched as [|turn sched IH]; intros dbc t1 t2 Hacts Ht1 Ht2 Hsum.
  - cbn. lia.
  - pose proof (tickets_le_1 (thread_prog t1)).
    pose proof (tickets_le_1 (thread_prog t2)).
    destruct turn; cbn [interleave].
    + destruct (step_guarded n acts M t1 dbc Hacts Ht1) as (Ha & Hg & Hstep).
      pose proof (tickets_le_1 (thread_prog (step dbc t1).2)).
      destruct (step dbc t1) as [dbc' t1']. cbn [fst snd] in *.
      apply IH; [done..|]. destruct Hstep as [Hle|(Hr & Htk & Hlt)]; [lia|].
      rewrite Hr. lia.
    + destruct (step_guarded n acts M t2 dbc Hacts Ht2) as (Ha & Hg & Hstep).
      pose proof (tickets_le_1 (thread_prog (step dbc t2).2)).
      destruct (step dbc t2) as [dbc' t2']. cbn [fst snd] in *.
      apply IH; [done..|]. destruct Hstep as [Hle|(Hr & Htk & Hlt)]; [lia|].
      rewrite Hr. lia.
Qed.

Lemma signup_guarded n e a acts :
  head (filter (λ b, name b = n) acts) = Some a →
  guarded n acts (max_participants a) (signup_for_activity n e).
Proof.
  intros Hsel.
  unfold signup_for_activity, first, all, mbind, Prog_bind, fmap, Prog_fmap, exec,
    mret, Prog_ret.
  cbn [prog_bind]. apply guarded_select_activity; rewrite Hsel; cbn [prog_bind]; [done|].
  apply guarded_select_participant; intros rows;
    destruct (head rows); cbn [prog_bind]; [done | done | constructor |].
  apply guarded_count; [done | |]; intros rows';
    destruct (Z.geb_spec (Z.of_nat (length rows')) (max_participants a)) as [Hge|Hlt];
    cbn [prog_bind].
  - constructor.
  - by eapply guarded_add.
  - by left.
  - by right.
Qed.

(** X15.  How far the race goes: when two signups for the same activity run
    concurrently on a store with unique activity names where the activity is
    within its capacity, then under every schedule of their statements the
    activity ends with at most one enrollment more than [max_participants]. *)
Theorem race_overshoots_by_one (db : Database) (a : Activity) (e1 e2 : string)
    (sched : list Turn) :
  NoDup (name <$> activity_table db) →
  a ∈ activity_table db →
  (Z.of_nat (length (roster (name a) db)) ≤ max_participants a)%Z →
  (Z.of_nat (length (roster (name a)
     (interleave sched db (spawn (signup_for_activity (name a) e1))
        (spawn (signup_for_activity (name a) e2))).1.1))
   ≤ max_participants a + 1)%Z.
Proof.
  intros Hnd Ha Hcap.
  pose proof (select_activity_Some (name a) a db Hnd Ha eq_refl) as Hsel.
  apply (interleave_guarded (name a) (activity_table db)); [done | | |].
  - left. split; [done | by apply signup_guarded].
  - left. split; [done | by apply signup_guarded].
  - cbn. lia.
Qed.

Lemma race_overshoots_by_one_witness :
  let a := mkActivity (Some 1%Z) "A" "" "" 1 in
  NoDup (name <$> activity_table race_db)
  ∧ a ∈ activity_table race_db
  ∧ (Z.of_nat (length (roster (name a) race_db)) ≤ max_participants a)%Z
  ∧ (Z.of_nat (length (roster (name a)
       (interleave racing race_db (spawn (signup_for_activity (name a) "x@e"))
          (spawn (signup_for_activity (name a) "y@e"))).1.1))
     ≤ max_participants a + 1)%Z.
Proof.
  intros a.
  assert (NoDup (name <$> activity_table race_db)) as Hnd
    by (apply (bool_decide_unpack _); vm_compute; exact I).
  assert (a ∈ activity_table race_db) as Ha
    by (apply (bool_decide_unpack _); vm_compute; exact I).
  assert (Z.of_nat (length (roster (name a) race_db)) ≤ max_participants a)%Z as Hcap
    by (vm_compute; discriminate).
  split_and!; [exact Hnd | exact Ha | exact Hcap |].
  exact (race_overshoots_by_one race_db a "x@e" "y@e" racing Hnd Ha Hcap).
Defined.
